(** * LogWriter: the buffered log writer of the logger module

    Shallow embedding of [src/modules/logger/log_writer.cpp]: the ring
    buffer arithmetic ([write], [get_read_ptr], [mark_read]), the session
    control ([start_log], [stop_log], [thread_stop]) and the writer thread
    ([run]), the latter as a step function over the program points at
    which the other threads can interleave. *)

From Stdlib Require Import ZArith Lia Bool.
From stdpp Require Import list.

Local Open Scope Z_scope.

(** ** Machine integers

    The firmware targets 32-bit microcontrollers: [size_t] is an unsigned
    and [int] a signed 32-bit integer.  Values are kept in [Z]; every
    arithmetic result is wrapped explicitly. *)

Definition size_t (z : Z) : Z := z mod 2 ^ 32.

Definition int_cast (z : Z) : Z := (z + 2 ^ 31) mod 2 ^ 32 - 2 ^ 31.

Definition INT_MAX : Z := 2 ^ 31 - 1.

(** ** The object state *)

Record LogWriter := MkLogWriter {
  _buffer_size : Z;
  _buffer : list Byte.byte;
  _head : Z;
  _count : Z;
  _should_run : bool;
  _running : bool;
  _exit_thread : bool;
  _fd : Z;
  _total_written : Z
}.

Definition set_ring (s : LogWriter) (buf : list Byte.byte) (head count : Z)
  : LogWriter :=
  MkLogWriter (_buffer_size s) buf head count (_should_run s) (_running s)
    (_exit_thread s) (_fd s) (_total_written s).

Definition set_should_run (s : LogWriter) (b : bool) : LogWriter :=
  MkLogWriter (_buffer_size s) (_buffer s) (_head s) (_count s) b (_running s)
    (_exit_thread s) (_fd s) (_total_written s).

Definition set_total_written (s : LogWriter) (t : Z) : LogWriter :=
  MkLogWriter (_buffer_size s) (_buffer s) (_head s) (_count s)
    (_should_run s) (_running s) (_exit_thread s) (_fd s) t.

(** [LogWriter::LogWriter(buffer_size)].  The constant [_min_write_chunk]
    is declared in log_writer.h and is taken as the parameter [mwc].  The
    other members get the initial values of an idle writer: no buffer yet,
    no open file. *)
Definition LogWriter_ctor (mwc buffer_size : Z) : LogWriter :=
  MkLogWriter (Z.max buffer_size (size_t (mwc + 300))) [] 0 0
    false false false (-1) 0.

(** [LogWriter::init]: allocates [_buffer_size] bytes once.  The contents
    of the fresh array are indeterminate; [fill] stands for them.  The
    allocation is taken to succeed, so that the result of the call, that
    [_buffer] is not null, is true and is left out. *)
Definition init (fill : Byte.byte) (s : LogWriter) : LogWriter :=
  match _buffer s with
  | [] => set_ring s (replicate (Z.to_nat (_buffer_size s)) fill)
            (_head s) (_count s)
  | _ :: _ => s
  end.

(** [memcpy(&dst[doff], &src[soff], n)] on lists.  In range
    ([doff + n <= length dst], [soff + n <= length src]) this overwrites
    exactly [n] bytes; out of range the C call is undefined and the model
    is not meant to be used. *)
Definition memcpy (dst : list Byte.byte) (doff : Z) (src : list Byte.byte)
    (soff n : Z) : list Byte.byte :=
  take (Z.to_nat doff) dst
    ++ take (Z.to_nat n) (drop (Z.to_nat soff) src)
    ++ drop (Z.to_nat (doff + n)) dst.

(** [LogWriter::write(ptr, size)]: the payload is the list [ptr], its
    length is [size]. *)
Definition write (s : LogWriter) (ptr : list Byte.byte) : bool * LogWriter :=
  let size := Z.of_nat (length ptr) in
  let available := size_t (_buffer_size s - _count s) in
  if size >? available then (false, s)
  else
    let n := size_t (_buffer_size s - _head s) in
    let '(buf1, head1, n1) :=
      if size >? n
      then (memcpy (_buffer s) (_head s) ptr 0 n, 0, n)
      else (_buffer s, _head s, 0) in
    let p := size_t (size - n1) in
    let buf2 := memcpy buf1 head1 ptr n1 p in
    (true, set_ring s buf2 (size_t (head1 + p) mod _buffer_size s)
             (size_t (_count s + size))).

(** [LogWriter::get_read_ptr(&ptr, &is_part)]: returns
    [(available, read offset into _buffer, is_part)]. *)
Definition get_read_ptr (s : LogWriter) : Z * Z * bool :=
  let read_ptr := int_cast (size_t (_head s - _count s)) in
  if read_ptr <? 0 then
    let read_ptr' := int_cast (size_t (read_ptr + _buffer_size s)) in
    (size_t (_buffer_size s - read_ptr'), read_ptr', true)
  else (_count s, read_ptr, false).

(** Modelled from the spec: [mark_read] is defined in log_writer.h, which
    is not part of the sources; the spec's [consume(n)] decrements
    [stored_count] by [n] and does not move [write_cursor]. *)
Definition mark_read (s : LogWriter) (n : Z) : LogWriter :=
  set_ring s (_buffer s) (_head s) (size_t (_count s - size_t n)).

(** [LogWriter::start_log(filename)]; [fd] is the result of [::open]. *)
Definition start_log (s : LogWriter) (fd : Z) : LogWriter :=
  if fd <? 0 then
    MkLogWriter (_buffer_size s) (_buffer s) (_head s) (_count s) false
      (_running s) (_exit_thread s) fd (_total_written s)
  else
    MkLogWriter (_buffer_size s) (_buffer s) 0 0 true true
      (_exit_thread s) fd 0.

(** [LogWriter::stop_log]. *)
Definition stop_log (s : LogWriter) : LogWriter := set_should_run s false.

(** [LogWriter::thread_stop]. *)
Definition thread_stop (s : LogWriter) : LogWriter :=
  MkLogWriter (_buffer_size s) (_buffer s) (_head s) (_count s) false
    (_running s) true (_fd s) (_total_written s).

(** ** The writer thread

    [LogWriter::run] shares the object with the producer and the
    controller.  It is cut at the points where another thread can run in
    between: the loop heads, the two condition-variable waits, the
    unlocked [::write], the locked [mark_read] and the unlocked check that
    ends a session.  A wait on the condition variable is a step that can
    always be taken and changes nothing while its condition fails (a
    wake-up without cause is allowed). *)

Inductive event :=
| Write_ev (fd : Z) (buf : list Byte.byte) (ret : Z)
| Fsync_ev (fd : Z)
| Close_ev (fd : Z) (ret : Z).

Inductive wpc :=
| PcOuter   (* line 146: head of the outer loop *)
| PcInner   (* line 149: head of the loop that waits for _should_run *)
| PcIdle    (* line 152: parked in pthread_cond_wait *)
| PcWait    (* lines 172-187: locked, waiting for sufficient data *)
| PcWrite   (* lines 189-210: unlocked, ::write and periodic ::fsync *)
| PcMark    (* lines 212-215: locked mark_read *)
| PcCheck   (* lines 217-239: _total_written and the end-of-session check *)
| PcExit.   (* run has returned *)

Record System := MkSystem {
  lw : LogWriter;
  pc : wpc;
  poll_count : Z;
  written : Z;
  available : Z;
  read_ptr : Z;
  is_part : bool;
  sink : list event
}.

Definition goto (st : System) (p : wpc) : System :=
  MkSystem (lw st) p (poll_count st) (written st) (available st)
    (read_ptr st) (is_part st) (sink st).

Definition with_lw (st : System) (s : LogWriter) : System :=
  MkSystem s (pc st) (poll_count st) (written st) (available st)
    (read_ptr st) (is_part st) (sink st).

(** The bytes [::write(_fd, read_ptr, available)] is handed: a contiguous
    span of [_buffer], read in place. *)
Definition span (s : LogWriter) (read_ptr available : Z) : list Byte.byte :=
  take (Z.to_nat available) (drop (Z.to_nat read_ptr) (_buffer s)).

(** Lines 175-178, the condition that ends the wait for data. *)
Definition wait_over (mwc : Z) (s : LogWriter) : bool :=
  let '(available, _, is_part) := get_read_ptr s in
  (available >=? mwc) || is_part || negb (_should_run s).

(** Lines 172-189. *)
Definition step_wait (mwc : Z) (st : System) : System :=
  let '(available, read_ptr, is_part) := get_read_ptr (lw st) in
  if wait_over mwc (lw st)
  then MkSystem (lw st) PcWrite (poll_count st) (written st) available
         read_ptr is_part (sink st)
  else st.

(** Lines 190-210; [ret] is the result of [::write]. *)
Definition step_write (ret : Z) (st : System) : System :=
  let s := lw st in
  if available st >? 0 then
    let written := int_cast ret in
    let ev := Write_ev (_fd s) (span s (read_ptr st) (available st)) ret in
    let poll_count := int_cast (poll_count st + 1) in
    let '(poll_count', evs) :=
      if poll_count >=? 100 then (0, [ev; Fsync_ev (_fd s)])
      else (poll_count, [ev]) in
    if written <? 0 then
      MkSystem (set_should_run s false) PcOuter poll_count' written
        (available st) (read_ptr st) (is_part st) (sink st ++ evs)
    else
      MkSystem s PcMark poll_count' written (available st) (read_ptr st)
        (is_part st) (sink st ++ evs)
  else
    MkSystem s PcCheck (poll_count st) 0 (available st) (read_ptr st)
      (is_part st) (sink st).

(** Lines 212-215. *)
Definition step_mark (st : System) : System :=
  goto (with_lw st (mark_read (lw st) (written st))) PcCheck.

(** Lines 217-239; [ret] is the result of [::close]. *)
Definition step_check (ret : Z) (st : System) : System :=
  let s :=
    if available st >? 0
    then set_total_written (lw st)
           (size_t (_total_written (lw st) + size_t (written st)))
    else lw st in
  if negb (_should_run s) && (written st =? int_cast (available st))
     && negb (is_part st)
  then
    let s' := MkLogWriter (_buffer_size s) (_buffer s) 0 0 (_should_run s)
                false (_exit_thread s)
                (if _fd s >=? 0 then -1 else _fd s) (_total_written s) in
    MkSystem s' PcOuter (poll_count st) (written st) (available st)
      (read_ptr st) (is_part st)
      (sink st ++ (if _fd s >=? 0 then [Close_ev (_fd s) ret] else []))
  else goto (with_lw st s) PcWait.

(** The drain loop is entered with fresh [poll_count] and [written]
    (lines 161-162). *)
Definition enter_drain (st : System) : System :=
  MkSystem (lw st) PcWait 0 0 (available st) (read_ptr st) (is_part st)
    (sink st).

(** One step of the writer thread; [ret] is what the system call of the
    step returns, if it makes one. *)
Definition worker_step (mwc ret : Z) (st : System) : System :=
  match pc st with
  | PcOuter => if _exit_thread (lw st) then goto st PcExit else goto st PcInner
  | PcInner => if _exit_thread (lw st) then enter_drain st else goto st PcIdle
  | PcIdle => if _should_run (lw st) then enter_drain st else goto st PcInner
  | PcWait => step_wait mwc st
  | PcWrite => step_write ret st
  | PcMark => step_mark st
  | PcCheck => step_check ret st
  | PcExit => st
  end.

(** What the other threads do to the object. *)
Inductive input :=
| IAppend (data : list Byte.byte)   (* producer: write, under the lock *)
| IStartLog (fd : Z)                (* controller: start_log *)
| IStopLog                          (* controller: stop_log *)
| IThreadStop                       (* controller: thread_stop *)
| IWorker (ret : Z).                (* the writer thread takes a step *)

Definition step (mwc : Z) (i : input) (st : System) : System :=
  match i with
  | IAppend data => with_lw st (snd (write (lw st) data))
  | IStartLog fd => with_lw st (start_log (lw st) fd)
  | IStopLog => with_lw st (stop_log (lw st))
  | IThreadStop => with_lw st (thread_stop (lw st))
  | IWorker ret => worker_step mwc ret st
  end.

Definition exec (mwc : Z) (ins : list input) (st : System) : System :=
  foldl (fun st i => step mwc i st) st ins.

(** A writer that has been constructed and initialised, its thread
    started and about to test the outer loop condition. *)
Definition boot (mwc buffer_size : Z) (fill : Byte.byte) : System :=
  MkSystem (init fill (LogWriter_ctor mwc buffer_size)) PcOuter 0 0 0 0 false
    [].

(** The bytes that reached the sink: of each [::write] that returned
    [ret >= 0], the first [ret] bytes of the span it was given. *)
Fixpoint delivered (evs : list event) : list Byte.byte :=
  match evs with
  | [] => []
  | Write_ev _ buf ret :: evs' =>
      (if ret <? 0 then [] else take (Z.to_nat ret) buf) ++ delivered evs'
  | _ :: evs' => delivered evs'
  end.

(** The unread region of the ring: [_count] bytes that end at [_head],
    read circularly. *)
Definition read_pos (s : LogWriter) : Z :=
  (_head s - _count s) mod _buffer_size s.

Definition unread (s : LogWriter) : list Byte.byte :=
  take (Z.to_nat (_count s))
    (drop (Z.to_nat (read_pos s)) (_buffer s ++ _buffer s)).

(** The representation invariant of the ring buffer. *)
Definition ring_inv (s : LogWriter) : Prop :=
  0 < _buffer_size s <= INT_MAX
  /\ Z.of_nat (length (_buffer s)) = _buffer_size s
  /\ 0 <= _head s < _buffer_size s
  /\ 0 <= _count s <= _buffer_size s.

(** The new write cursor and the new buffer, without machine wrapping. *)
Definition write_head (s : LogWriter) (size : Z) : Z :=
  if size >? _buffer_size s - _head s
  then size - (_buffer_size s - _head s)
  else if size =? _buffer_size s - _head s then 0 else _head s + size.

Definition write_buffer (s : LogWriter) (ptr : list Byte.byte)
  : list Byte.byte :=
  let size := Z.of_nat (length ptr) in
  let n := _buffer_size s - _head s in
  if size >? n
  then memcpy (memcpy (_buffer s) (_head s) ptr 0 n) 0 ptr n (size - n)
  else memcpy (_buffer s) (_head s) ptr 0 size.


(** ** Concrete writers

    Capacity 1024, chunk threshold 300, log file descriptor 3: the sizes of
    the spec's scenarios. *)
Definition demo_writer : LogWriter :=
  start_log (init Byte.x00 (LogWriter_ctor 300 1024)) 3.

Definition payload (n : nat) (b : Byte.byte) : list Byte.byte := replicate n b.

(** 900 bytes stored, 124 free. *)
Definition demo_900 : LogWriter :=
  snd (write demo_writer (payload 900 Byte.x01)).

(** The whole storage filled by one payload: the unread region ends
    exactly at the end of the storage. *)
Definition demo_full : LogWriter :=
  snd (write demo_writer (payload 1024 Byte.x01)).

(** The spec's threshold scenario: the thread is started and parks, a
    session is opened on descriptor 3, the thread enters the drain loop,
    and 200 bytes are appended. *)
Definition demo_parked : System :=
  exec 300 [IWorker 0; IWorker 0; IStartLog 3; IWorker 0;
            IAppend (payload 200 Byte.x01)]
    (boot 300 1024 Byte.x00).

(** 150 more bytes, then the thread runs one iteration of the drain loop
    with a [::write] that takes everything. *)
Definition demo_woken : System :=
  exec 300 [IAppend (payload 150 Byte.x02); IWorker 0; IWorker 350;
            IWorker 0; IWorker 0]
    demo_parked.

(** Inputs that do not open a session. *)
Definition no_start (i : input) : Prop :=
  match i with IStartLog _ => False | _ => True end.

(** Inputs that neither open a session nor end the thread. *)
Definition no_start_no_exit (i : input) : Prop :=
  match i with IStartLog _ | IThreadStop => False | _ => True end.

(** Inputs of the controller and the thread only: no producer. *)
Definition no_start_no_append (i : input) : Prop :=
  match i with IStartLog _ | IAppend _ => False | _ => True end.

(** Events on a handle that is not open: no [::close], and [::write] and
    [::fsync] only with the descriptor [-1]. *)
Definition on_closed_handle (e : event) : Prop :=
  match e with
  | Write_ev fd _ _ => fd = -1
  | Fsync_ev fd => fd = -1
  | Close_ev _ _ => False
  end.

Definition is_close (e : event) : bool :=
  match e with Close_ev _ _ => true | _ => false end.

(** The thread is outside the drain loop, no session is wanted and the
    thread has not been told to end. *)
Definition parked (st : System) : Prop :=
  _should_run (lw st) = false
  /\ _exit_thread (lw st) = false
  /\ (pc st = PcOuter \/ pc st = PcInner \/ pc st = PcIdle).

(** After a session has been closed: no session is wanted and no
    descriptor is open. *)
Definition closed (st : System) : Prop :=
  _should_run (lw st) = false /\ _fd (lw st) = -1.

(** Closed, with an empty ring and no write pending in the thread. *)
Definition quiet (st : System) : Prop :=
  closed st
  /\ _running (lw st) = false
  /\ _head (lw st) = 0 /\ _count (lw st) = 0
  /\ match pc st with
     | PcWrite => available st = 0 /\ is_part st = false
     | PcCheck => available st = 0 /\ written st = 0 /\ is_part st = false
     | PcMark => False
     | _ => True
     end.

(** 350 bytes buffered, the thread about to call [::write]. *)
Definition demo_writing : System :=
  exec 300 [IAppend (payload 150 Byte.x02); IWorker 0] demo_parked.

(** The session of [demo_woken] after [stop_log], the thread about to
    make the end-of-session check with an empty ring. *)
Definition demo_closing : System :=
  exec 300 [IStopLog; IWorker 0; IWorker 0] demo_woken.

(** ** The flush cadence, as seen by the sink *)

Inductive io := Wr | Fs.

(** The [::write] and [::fsync] calls of a trace, in order. *)
Fixpoint ios (evs : list event) : list io :=
  match evs with
  | [] => []
  | Write_ev _ _ _ :: evs' => Wr :: ios evs'
  | Fsync_ev _ :: evs' => Fs :: ios evs'
  | Close_ev _ _ :: evs' => ios evs'
  end.

Definition io_eqb (a b : io) : bool :=
  match a, b with
  | Wr, Wr | Fs, Fs => true
  | _, _ => false
  end.

Fixpoint count_io (k : io) (l : list io) : nat :=
  match l with
  | [] => 0
  | x :: l' => (if io_eqb k x then 1 else 0) + count_io k l'
  end%nat.

(** What the counter of line 198 makes of [n] writes, starting from the
    value [c]. *)
Fixpoint cadence (c : Z) (n : nat) : list io :=
  match n with
  | O => []
  | S n' =>
      Wr :: (if c + 1 >=? 100 then Fs :: cadence 0 n' else cadence (c + 1) n')
  end.

(** The thread is inside the drain loop of lines 164-240. *)
Definition in_drain (st : System) : bool :=
  match pc st with
  | PcWait | PcWrite | PcMark | PcCheck => true
  | _ => false
  end.

(** The run [ins] from [st] never leaves the drain loop. *)
Fixpoint stays_in_drain (mwc : Z) (ins : list input) (st : System) : bool :=
  match ins with
  | [] => true
  | i :: ins' =>
      in_drain (step mwc i st) && stays_in_drain mwc ins' (step mwc i st)
  end.

(** What a run added to the sink's trace. *)
Definition new_events (st st' : System) : list event :=
  drop (length (sink st)) (sink st').

(** The counter of line 198 after [n] writes, starting from [c]. *)
Fixpoint cadence_end (c : Z) (n : nat) : Z :=
  match n with
  | O => c
  | S n' => cadence_end (if c + 1 >=? 100 then 0 else c + 1) n'
  end.

(** A session just opened, the thread at the top of the drain loop. *)
Definition demo_active : System :=
  exec 300 [IWorker 0; IWorker 0; IStartLog 3; IWorker 0]
    (boot 300 1024 Byte.x00).

(** One iteration of the drain loop on 300 fresh bytes. *)
Definition one_write : list input :=
  [IAppend (payload 300 Byte.x03); IWorker 0; IWorker 300; IWorker 0;
   IWorker 0].

Definition hundred_writes : list input := concat (replicate 100 one_write).

(** ** The byte stream of a session *)

(** What the thread knows about the ring between its critical sections:
    the run it is about to write is the head of the unread region; the
    bytes it has written and not yet marked are still counted. *)
Definition sys_inv (st : System) : Prop :=
  ring_inv (lw st)
  /\ match pc st with
     | PcWrite =>
         read_ptr st = read_pos (lw st)
         /\ 0 <= available st <= _count (lw st)
         /\ read_pos (lw st) + available st <= _buffer_size (lw st)
     | PcMark => 0 <= written st <= _count (lw st)
     | _ => True
     end.

(** The bytes accepted and not yet given to the sink. *)
Definition pending (st : System) : list Byte.byte :=
  match pc st with
  | PcMark => drop (Z.to_nat (written st)) (unread (lw st))
  | _ => unread (lw st)
  end.

(** A session in progress: the producer appends, the thread steps, and
    every [::write] returns a count between zero and the length asked. *)
Fixpoint session_run (mwc : Z) (ins : list input) (st : System) : Prop :=
  match ins with
  | [] => True
  | i :: ins' =>
      match i with
      | IAppend _ => True
      | IWorker r => pc st = PcWrite -> 0 <= r <= available st
      | _ => False
      end
      /\ session_run mwc ins' (step mwc i st)
  end.

(** The payloads [write] accepted during a run, in call order. *)
Fixpoint appended (mwc : Z) (ins : list input) (st : System)
  : list Byte.byte :=
  match ins with
  | [] => []
  | i :: ins' =>
      match i with
      | IAppend d => if fst (write (lw st) d) then d else []
      | _ => []
      end ++ appended mwc ins' (step mwc i st)
  end.

(** The buffers handed to [::write], in call order. *)
Fixpoint written_spans (evs : list event) : list (list Byte.byte) :=
  match evs with
  | [] => []
  | Write_ev _ buf _ :: evs' => buf :: written_spans evs'
  | _ :: evs' => written_spans evs'
  end.

(** The race at the end of a session: while the thread is inside
    [::write] with the 350 bytes of [demo_writing], the producer appends
    100 more and the controller calls [stop_log]; the [::write] then
    returns and the thread finishes its iteration. *)
Definition demo_race : System :=
  exec 300 [IAppend (payload 100 Byte.x04); IStopLog; IWorker 350;
            IWorker 0; IWorker 0]
    demo_writing.

(** A region that wraps: 350 bytes appended and drained, then 700 more,
    which end 26 bytes after the start of the storage; the thread runs one
    iteration, whose [::write] takes the 674 bytes of the tail. *)
Definition demo_wrapped : System :=
  exec 300 [IAppend (payload 350 Byte.x01); IWorker 0; IWorker 350;
            IWorker 0; IWorker 0; IAppend (payload 700 Byte.x02)]
    demo_active.

Definition demo_tail_written : System :=
  exec 300 [IWorker 0; IWorker 674; IWorker 0; IWorker 0] demo_wrapped.

(** An input the object can meet at [st]: [::write] returns an error or a
    count of at most the length asked, and a session is opened only while
    the thread is outside the drain loop. *)
Definition valid_input (i : input) (st : System) : Prop :=
  match i with
  | IStartLog _ => in_drain st = false
  | IWorker r => pc st = PcWrite -> - 2 ^ 31 <= r <= available st
  | _ => True
  end.

Fixpoint valid_run (mwc : Z) (ins : list input) (st : System) : Prop :=
  match ins with
  | [] => True
  | i :: ins' => valid_input i st /\ valid_run mwc ins' (step mwc i st)
  end.

(** A session with a short write and a wrap: 350 bytes appended, of which
    [::write] takes 100; 700 more appended while the thread is between
    its critical sections; then the rest is written in runs. *)
Definition demo_session : list input :=
  [IAppend (payload 350 Byte.x01); IWorker 0; IWorker 100; IWorker 0;
   IAppend (payload 700 Byte.x02); IWorker 0; IWorker 0; IWorker 250;
   IWorker 0; IWorker 0; IWorker 0; IWorker 674; IWorker 0;
   IAppend (payload 2000 Byte.x03); IWorker 0].

(** How many steps a thread that has been told to end, with no session
    and an empty ring, is away from returning. *)
Definition exit_rank (st : System) : nat :=
  match pc st with
  | PcExit => 0
  | PcOuter => 1
  | PcCheck => 2
  | PcWrite => 3
  | PcWait => 4
  | PcInner => 5
  | PcIdle => 6
  | PcMark => 7
  end.

(** The thread running alone, every [::write] taking all it is given and
    [::close] succeeding, until it leaves the drain loop. *)
Definition full_ret (st : System) : Z :=
  match pc st with PcWrite => available st | _ => 0 end.

Fixpoint drain_alone (mwc : Z) (fuel : nat) (st : System) : System :=
  match fuel with
  | O => st
  | S fuel' =>
      if in_drain st
      then drain_alone mwc fuel' (worker_step mwc (full_ret st) st)
      else st
  end.

(** [demo_wrapped] with the session stopped. *)
Definition demo_wrapped_stopped : System := step 300 IStopLog demo_wrapped.

(** A thread parked with no session: [demo_closing] after its check. *)
Definition demo_closed : System := worker_step 300 0 demo_closing.

(** A [::write] that was given at least one byte. *)
Definition nonempty_write (e : event) : Prop :=
  match e with
  | Write_ev _ buf _ => (0 < length buf)%nat
  | _ => True
  end.

(** The bytes counted by the thread and not yet added to
    [_total_written]. *)
Definition uncounted (st : System) : Z :=
  match pc st with
  | PcMark => written st
  | PcCheck => if available st >? 0 then written st else 0
  | _ => 0
  end.

(** The session of [demo_writing] stopped while its 350 bytes are being
    written: the [::write] has taken them all, [mark_read] is done and
    the thread is about to make the end-of-session check. *)
Definition demo_closing_full : System :=
  exec 300 [IStopLog; IWorker 350; IWorker 0] demo_writing.

(** After the close of [demo_closing]: the thread parks, the producer
    appends 10 bytes, the controller calls [thread_stop], and the thread,
    woken, makes its last pass; the [::write] on the invalid handle
    fails. *)
Definition late_append_run : list input :=
  [IWorker 0; IWorker 0; IAppend (payload 10 Byte.x05); IThreadStop;
   IWorker 0; IWorker 0; IWorker 0; IWorker (-1)].

(** The [::write] of [demo_writing] fails. *)
Definition demo_error : System := worker_step 300 (-1) demo_writing.

(** After the failure: the thread parks, the controller calls
    [thread_stop], and the thread, woken, makes its last pass, in which
    [::write] succeeds. *)
Definition exit_after_error_run : list input :=
  [IWorker 0; IWorker 0; IThreadStop; IWorker 0; IWorker 0; IWorker 0;
   IWorker 350; IWorker 0; IWorker 0].

(** The tail of [demo_wrapped] written in two calls, the first taking
    100 bytes of the 674. *)
Definition demo_tail_short : System :=
  exec 300 [IWorker 0; IWorker 100; IWorker 0; IWorker 0;
            IWorker 0; IWorker 574] demo_wrapped.

(** [demo_closing_full] after its check: the session is closed. *)
Definition demo_closed_full : System := worker_step 300 0 demo_closing_full.
(** ** Machine arithmetic within range *)

Lemma size_t_small z : 0 <= z < 2 ^ 32 -> size_t z = z.
Proof. intros H. unfold size_t. now apply Z.mod_small. Qed.

Lemma int_cast_small z : - 2 ^ 31 <= z < 2 ^ 31 -> int_cast z = z.
Proof.
  intros H. unfold int_cast. rewrite Z.mod_small; lia.
Qed.

Lemma int_cast_size_t z : int_cast (size_t z) = int_cast z.
Proof.
  unfold int_cast, size_t.
  rewrite Zplus_mod_idemp_l. reflexivity.
Qed.

Lemma size_t_idemp z : size_t (size_t z) = size_t z.
Proof. unfold size_t. apply Z.mod_mod. lia. Qed.

Lemma INT_MAX_val : INT_MAX = 2147483647.
Proof. reflexivity. Qed.

Ltac range := rewrite ?INT_MAX_val in *; lia.

(** ** [get_read_ptr] and [write] on a well-formed ring *)

Lemma get_read_ptr_inv s :
  ring_inv s ->
  get_read_ptr s =
    if _head s <? _count s
    then (_count s - _head s, _head s - _count s + _buffer_size s, true)
    else (_count s, _head s - _count s, false).
Proof.
  intros (Hbs & _ & Hh & Hc). unfold get_read_ptr.
  rewrite int_cast_size_t, (int_cast_small (_head s - _count s)) by range.
  destruct (Z.ltb_spec (_head s) (_count s)) as [Hlt | Hge].
  - destruct (Z.ltb_spec (_head s - _count s) 0) as [_ | ?]; [| lia].
    rewrite int_cast_size_t, int_cast_small by range.
    rewrite size_t_small by range.
    f_equal. f_equal. lia.
  - destruct (Z.ltb_spec (_head s - _count s) 0) as [? | _]; [lia |].
    reflexivity.
Qed.

Lemma read_pos_inv s :
  ring_inv s ->
  read_pos s =
    if _head s <? _count s
    then _head s - _count s + _buffer_size s
    else _head s - _count s.
Proof.
  intros (Hbs & _ & Hh & Hc). unfold read_pos.
  destruct (Z.ltb_spec (_head s) (_count s)) as [Hlt | Hge].
  - symmetry. apply Z.mod_unique with (q := -1); lia.
  - apply Z.mod_small. lia.
Qed.

Lemma write_inv s ptr :
  ring_inv s ->
  write s ptr =
    if Z.of_nat (length ptr) >? _buffer_size s - _count s
    then (false, s)
    else (true, set_ring s (write_buffer s ptr)
                  (write_head s (Z.of_nat (length ptr)))
                  (_count s + Z.of_nat (length ptr))).
Proof.
  intros (Hbs & _ & Hh & Hc). unfold write, write_buffer, write_head.
  rewrite (size_t_small (_buffer_size s - _count s)) by range.
  destruct (Z.gtb_spec (Z.of_nat (length ptr)) (_buffer_size s - _count s))
    as [Hov | Hfit]; [reflexivity |].
  rewrite (size_t_small (_buffer_size s - _head s)) by range.
  rewrite (size_t_small (_count s + _)) by range.
  destruct (Z.gtb_spec (Z.of_nat (length ptr)) (_buffer_size s - _head s))
    as [Hwrap | Hflat].
  - rewrite (size_t_small (_ - _)) by range.
    rewrite Z.add_0_l, size_t_small by range.
    rewrite Z.mod_small by lia. reflexivity.
  - rewrite Z.sub_0_r, (size_t_small (Z.of_nat _)) by range.
    rewrite (size_t_small (_ + _)) by range.
    do 2 f_equal.
    destruct (Z.eqb_spec (Z.of_nat (length ptr)) (_buffer_size s - _head s))
      as [e | ne].
    + rewrite e. replace (_head s + (_buffer_size s - _head s))
        with (_buffer_size s) by lia.
      apply Z.mod_same. lia.
    + apply Z.mod_small. lia.
Qed.

(** ** Contents of the ring, byte by byte *)

Section lookups.
Context {A : Type}.
Implicit Types l k : list A.

Lemma lookup_app_dec l k (i : nat) :
  (l ++ k) !! i
  = if decide (i < length l)%nat then l !! i else k !! (i - length l)%nat.
Proof.
  case_decide; [apply lookup_app_l | apply lookup_app_r]; lia.
Qed.

End lookups.

Lemma lookup_memcpy dst doff src soff n (j : nat) :
  0 <= doff -> 0 <= soff -> 0 <= n ->
  doff + n <= Z.of_nat (length dst) ->
  soff + n <= Z.of_nat (length src) ->
  memcpy dst doff src soff n !! j
  = if decide (Z.of_nat j < doff) then dst !! j
    else if decide (Z.of_nat j < doff + n)
         then src !! Z.to_nat (soff + Z.of_nat j - doff)
         else dst !! j.
Proof.
  intros Hd Hs Hn Hdl Hsl. unfold memcpy.
  rewrite lookup_app_dec, length_take, lookup_take.
  rewrite lookup_app_dec, length_take, length_drop, lookup_take, lookup_drop.
  rewrite lookup_drop.
  repeat case_decide; try lia; try (f_equal; lia).
Qed.

Lemma length_memcpy dst doff src soff n :
  0 <= doff -> 0 <= soff -> 0 <= n ->
  doff + n <= Z.of_nat (length dst) ->
  soff + n <= Z.of_nat (length src) ->
  length (memcpy dst doff src soff n) = length dst.
Proof.
  intros Hd Hs Hn Hdl Hsl. unfold memcpy.
  rewrite !length_app, !length_take, !length_drop. lia.
Qed.

Lemma length_unread s : ring_inv s -> Z.of_nat (length (unread s)) = _count s.
Proof.
  intros Hinv. pose proof (read_pos_inv s Hinv) as Hrp.
  destruct Hinv as (Hbs & Hlen & Hh & Hc). unfold unread.
  rewrite length_take, length_drop, length_app.
  destruct (Z.ltb_spec (_head s) (_count s)); lia.
Qed.

Lemma lookup_unread s (i : nat) :
  ring_inv s ->
  unread s !! i
  = if decide (Z.of_nat i < _count s)
    then if decide (read_pos s + Z.of_nat i < _buffer_size s)
         then _buffer s !! Z.to_nat (read_pos s + Z.of_nat i)
         else _buffer s !! Z.to_nat (read_pos s + Z.of_nat i - _buffer_size s)
    else None.
Proof.
  intros Hinv. pose proof (read_pos_inv s Hinv) as Hrp.
  destruct Hinv as (Hbs & Hlen & Hh & Hc). unfold unread.
  rewrite lookup_take, lookup_drop, lookup_app_dec.
  destruct (Z.ltb_spec (_head s) (_count s));
    repeat case_decide; try lia; try (f_equal; lia).
Qed.

Lemma lookup_span s rp av (i : nat) :
  0 <= rp -> 0 <= av ->
  span s rp av !! i
  = if decide (Z.of_nat i < av) then _buffer s !! Z.to_nat (rp + Z.of_nat i)
    else None.
Proof.
  intros Hrp Hav. unfold span. rewrite lookup_take, lookup_drop.
  repeat case_decide; try lia; try (f_equal; lia).
Qed.

Lemma length_write_buffer s ptr :
  ring_inv s ->
  Z.of_nat (length ptr) <= _buffer_size s - _count s ->
  length (write_buffer s ptr) = length (_buffer s).
Proof.
  intros (Hbs & Hlen & Hh & Hc) Hfit. unfold write_buffer.
  destruct (Z.gtb_spec (Z.of_nat (length ptr)) (_buffer_size s - _head s)).
  - rewrite !length_memcpy; try lia.
    rewrite length_memcpy; lia.
  - rewrite length_memcpy; lia.
Qed.

Lemma ring_inv_write s ptr : ring_inv s -> ring_inv (snd (write s ptr)).
Proof.
  intros Hinv. rewrite write_inv by assumption.
  destruct (Z.gtb_spec (Z.of_nat (length ptr)) (_buffer_size s - _count s))
    as [Hov | Hfit]; [exact Hinv |].
  pose proof (length_write_buffer s ptr Hinv Hfit) as Hl.
  destruct Hinv as (Hbs & Hlen & Hh & Hc).
  unfold ring_inv, write_head; simpl. rewrite Hl.
  destruct (Z.gtb_spec (Z.of_nat (length ptr)) (_buffer_size s - _head s));
    destruct (Z.eqb_spec (Z.of_nat (length ptr)) (_buffer_size s - _head s));
    lia.
Qed.

Lemma lookup_write_buffer s ptr (j : nat) :
  ring_inv s ->
  Z.of_nat (length ptr) <= _buffer_size s - _count s ->
  Z.of_nat j < _buffer_size s ->
  write_buffer s ptr !! j
  = if decide (_head s <= Z.of_nat j < _head s + Z.of_nat (length ptr))
    then ptr !! Z.to_nat (Z.of_nat j - _head s)
    else if decide (Z.of_nat j + _buffer_size s
                    < _head s + Z.of_nat (length ptr))
         then ptr !! Z.to_nat (Z.of_nat j + _buffer_size s - _head s)
         else _buffer s !! j.
Proof.
  intros (Hbs & Hlen & Hh & Hc) Hfit Hj. unfold write_buffer.
  destruct (Z.gtb_spec (Z.of_nat (length ptr)) (_buffer_size s - _head s)).
  - rewrite lookup_memcpy; try lia; [| rewrite length_memcpy; lia].
    rewrite lookup_memcpy; try lia.
    repeat case_decide; try lia; try (f_equal; lia).
  - rewrite lookup_memcpy; try lia.
    repeat case_decide; try lia; try (f_equal; lia).
Qed.

(** An accepted [write] appends its payload to the unread region. *)
Lemma unread_write s ptr :
  ring_inv s ->
  Z.of_nat (length ptr) <= _buffer_size s - _count s ->
  unread (snd (write s ptr)) = unread s ++ ptr.
Proof.
  intros Hinv Hfit.
  pose proof (ring_inv_write s ptr Hinv) as Hinv'.
  pose proof (length_unread s Hinv) as Hlu.
  apply list_eq; intros i.
  rewrite lookup_unread by assumption.
  rewrite lookup_app_dec, lookup_unread by assumption.
  rewrite (read_pos_inv _ Hinv'), (read_pos_inv _ Hinv).
  revert Hinv'. rewrite write_inv by assumption.
  destruct (Z.gtb_spec (Z.of_nat (length ptr)) (_buffer_size s - _count s))
    as [Hov | _]; [lia |].
  intros Hinv'. destruct Hinv' as (_ & Hlen' & Hh' & Hc'). simpl in *.
  pose proof Hinv as (Hbs & Hlen & Hh & Hc).
  unfold write_head in *.
  destruct (Z.gtb_spec (Z.of_nat (length ptr)) (_buffer_size s - _head s));
    destruct (Z.eqb_spec (Z.of_nat (length ptr)) (_buffer_size s - _head s));
    destruct (Z.ltb_spec (_head s) (_count s));
    repeat match goal with
           | |- context [Z.ltb ?a ?b] => destruct (Z.ltb_spec a b)
           end;
    repeat case_decide; try lia;
    rewrite ?lookup_write_buffer by (assumption || lia);
    repeat case_decide; try lia; try (f_equal; lia);
    try (symmetry; apply lookup_ge_None_2; lia).
Qed.

Lemma mark_read_inv s n :
  ring_inv s -> 0 <= n <= _count s ->
  mark_read s n = set_ring s (_buffer s) (_head s) (_count s - n).
Proof.
  intros (Hbs & Hlen & Hh & Hc) Hn. unfold mark_read.
  rewrite (size_t_small n) by range.
  rewrite size_t_small by range. reflexivity.
Qed.

Lemma ring_inv_mark_read s n :
  ring_inv s -> 0 <= n <= _count s -> ring_inv (mark_read s n).
Proof.
  intros Hinv Hn. rewrite mark_read_inv by assumption.
  destruct Hinv as (Hbs & Hlen & Hh & Hc).
  unfold ring_inv; simpl. lia.
Qed.

(** [mark_read] drops the oldest bytes of the unread region. *)
Lemma unread_mark_read s n :
  ring_inv s -> 0 <= n <= _count s ->
  unread (mark_read s n) = drop (Z.to_nat n) (unread s).
Proof.
  intros Hinv Hn.
  pose proof (ring_inv_mark_read s n Hinv Hn) as Hinv'.
  apply list_eq; intros i.
  rewrite lookup_drop, !lookup_unread by assumption.
  rewrite (read_pos_inv _ Hinv'), (read_pos_inv _ Hinv).
  rewrite mark_read_inv by assumption. simpl.
  destruct Hinv as (Hbs & Hlen & Hh & Hc).
  repeat match goal with
         | |- context [Z.ltb ?a ?b] => destruct (Z.ltb_spec a b)
         end;
    repeat case_decide; try lia; try (f_equal; lia).
Qed.

(** A span that starts at the read position and stays inside the storage
    is a prefix of the unread region. *)
Lemma span_unread s av :
  ring_inv s -> 0 <= av <= _count s ->
  read_pos s + av <= _buffer_size s ->
  span s (read_pos s) av = take (Z.to_nat av) (unread s).
Proof.
  intros Hinv Hav Hfit. pose proof (read_pos_inv s Hinv) as Hrp.
  pose proof Hinv as (Hbs & Hlen & Hh & Hc).
  assert (0 <= read_pos s)
    by (destruct (Z.ltb_spec (_head s) (_count s)); lia).
  apply list_eq; intros i.
  rewrite lookup_span, lookup_take, lookup_unread by (assumption || lia).
  repeat case_decide; try lia; try (f_equal; lia).
Qed.

Lemma get_read_ptr_read_pos s :
  ring_inv s ->
  get_read_ptr s =
    if read_pos s + _count s >=? _buffer_size s
    then (_buffer_size s - read_pos s, read_pos s, true)
    else (_count s, read_pos s, false).
Proof.
  intros Hinv. rewrite get_read_ptr_inv, read_pos_inv by assumption.
  destruct Hinv as (Hbs & Hlen & Hh & Hc).
  destruct (Z.ltb_spec (_head s) (_count s));
    match goal with
    | |- context [Z.geb ?a ?b] => destruct (Z.geb_spec a b)
    end; try lia.
  - do 2 f_equal. lia.
  - reflexivity.
Qed.

(** ** Nothing moves the capacity *)

Lemma buffer_size_write s ptr :
  _buffer_size (snd (write s ptr)) = _buffer_size s.
Proof.
  unfold write.
  destruct (_ >? _); [reflexivity |].
  destruct (_ >? _); reflexivity.
Qed.

Lemma buffer_size_worker_step mwc ret st :
  _buffer_size (lw (worker_step mwc ret st)) = _buffer_size (lw st).
Proof.
  unfold worker_step, step_wait, step_write, step_mark, step_check.
  destruct (pc st); simpl;
    repeat match goal with
           | |- context [let '(_, _) := ?x in _] => destruct x
           | |- context [if ?b then _ else _] => destruct b
           end; reflexivity.
Qed.

Lemma buffer_size_step mwc i st :
  _buffer_size (lw (step mwc i st)) = _buffer_size (lw st).
Proof.
  destruct i; simpl.
  - apply buffer_size_write.
  - unfold start_log. destruct (_ <? _); reflexivity.
  - reflexivity.
  - reflexivity.
  - apply buffer_size_worker_step.
Qed.

Lemma ring_inv_start_log s fd : ring_inv s -> ring_inv (start_log s fd).
Proof.
  intros (Hbs & Hlen & Hh & Hc). unfold start_log, ring_inv.
  destruct (fd <? 0); simpl; lia.
Qed.

Lemma ring_inv_step_check ret st :
  ring_inv (lw st) -> ring_inv (lw (step_check ret st)).
Proof.
  intros (Hbs & Hlen & Hh & Hc). unfold step_check, ring_inv.
  destruct (available st >? 0); simpl;
    destruct (_ && _); simpl; lia.
Qed.

(** ** What [write] leaves alone *)

Lemma write_flags s ptr :
  _should_run (snd (write s ptr)) = _should_run s
  /\ _running (snd (write s ptr)) = _running s
  /\ _exit_thread (snd (write s ptr)) = _exit_thread s
  /\ _fd (snd (write s ptr)) = _fd s
  /\ _total_written (snd (write s ptr)) = _total_written s.
Proof.
  unfold write.
  destruct (_ >? _); [now repeat split |].
  destruct (_ >? _); now repeat split.
Qed.

Lemma exec_app mwc ins1 ins2 st :
  exec mwc (ins1 ++ ins2) st = exec mwc ins2 (exec mwc ins1 st).
Proof. unfold exec. apply foldl_app. Qed.

Lemma exec_cons mwc i ins st :
  exec mwc (i :: ins) st = exec mwc ins (step mwc i st).
Proof. reflexivity. Qed.

(** ** A thread without a session stays parked *)

Lemma parked_step mwc i st :
  no_start_no_exit i -> parked st ->
  parked (step mwc i st)
  /\ _fd (lw (step mwc i st)) = _fd (lw st)
  /\ _running (lw (step mwc i st)) = _running (lw st)
  /\ sink (step mwc i st) = sink st.
Proof.
  intros Hi (Hsr & Hex & Hpc). destruct i; simpl in Hi; try contradiction.
  - simpl. pose proof (write_flags (lw st) data) as (F1 & F2 & F3 & F4 & _).
    unfold parked; simpl. rewrite F1, F2, F3, F4. auto.
  - unfold parked; simpl. auto.
  - unfold parked; simpl. unfold worker_step.
    destruct Hpc as [-> | [-> | ->]]; rewrite ?Hsr, ?Hex; simpl; auto 10.
Qed.

Lemma parked_exec mwc ins : forall st,
  Forall no_start_no_exit ins -> parked st ->
  parked (exec mwc ins st)
  /\ _fd (lw (exec mwc ins st)) = _fd (lw st)
  /\ _running (lw (exec mwc ins st)) = _running (lw st)
  /\ sink (exec mwc ins st) = sink st.
Proof.
  induction ins as [| i ins IH]; intros st Hins Hp; [now auto |].
  inversion Hins as [| ? ? Hi Hins']; subst.
  destruct (parked_step mwc i st Hi Hp) as (Hp' & E1 & E2 & E3).
  rewrite exec_cons.
  destruct (IH _ Hins' Hp') as (Hp'' & E1' & E2' & E3').
  rewrite E1', E2', E3', E1, E2, E3. auto.
Qed.

(** ** A closed session stays closed *)

Lemma closed_step mwc i st :
  no_start i -> closed st ->
  closed (step mwc i st)
  /\ exists evs, sink (step mwc i st) = sink st ++ evs
                 /\ Forall on_closed_handle evs.
Proof.
  intros Hi (Hsr & Hfd).
  destruct i as [data | fd | | | r]; simpl in Hi; try contradiction; simpl.
  - pose proof (write_flags (lw st) data) as (F1 & _ & _ & F4 & _).
    unfold closed; simpl. rewrite F1, F4. repeat split; auto.
    exists []. rewrite app_nil_r. auto.
  - unfold closed; simpl. repeat split; auto.
    exists []. rewrite app_nil_r. auto.
  - unfold closed; simpl. repeat split; auto.
    exists []. rewrite app_nil_r. auto.
  - unfold worker_step, closed.
    destruct (pc st); simpl.
    1-3: destruct (_exit_thread (lw st)); rewrite ?Hsr; simpl;
      (repeat split; auto); exists []; rewrite app_nil_r; auto.
    + unfold step_wait. destruct (get_read_ptr (lw st)) as [[av rp] part].
      destruct (wait_over mwc (lw st)); simpl;
        (repeat split; auto); exists []; rewrite app_nil_r; auto.
    + unfold step_write. rewrite Hfd.
      destruct (available st >? 0); simpl;
        [| (repeat split; auto); exists []; rewrite app_nil_r; auto].
      destruct (int_cast (poll_count st + 1) >=? 100);
        destruct (int_cast r <? 0); simpl; (repeat split; auto);
        eexists; (split; [reflexivity |]);
        repeat constructor.
    + (repeat split; auto). exists []. rewrite app_nil_r. auto.
    + unfold step_check.
      destruct (available st >? 0); simpl; rewrite Hsr, Hfd; simpl;
        destruct (_ && _); simpl; (repeat split; auto);
        exists []; rewrite app_nil_r; auto.
    + (repeat split; auto). exists []. rewrite app_nil_r. auto.
Qed.

Lemma closed_exec mwc ins : forall st,
  Forall no_start ins -> closed st ->
  closed (exec mwc ins st)
  /\ exists evs, sink (exec mwc ins st) = sink st ++ evs
                 /\ Forall on_closed_handle evs.
Proof.
  induction ins as [| i ins IH]; intros st Hins Hc.
  - split; [assumption |]. exists []. rewrite app_nil_r. auto.
  - inversion Hins as [| ? ? Hi Hins']; subst.
    destruct (closed_step mwc i st Hi Hc) as (Hc' & e1 & E1 & F1).
    rewrite exec_cons.
    destruct (IH _ Hins' Hc') as (Hc'' & e2 & E2 & F2).
    split; [assumption |]. exists (e1 ++ e2).
    rewrite E2, E1, app_assoc. split; [reflexivity |].
    apply Forall_app; auto.
Qed.

Lemma get_read_ptr_empty s :
  _head s = 0 -> _count s = 0 -> get_read_ptr s = (0, 0, false).
Proof.
  intros Hh Hc. unfold get_read_ptr. rewrite Hh, Hc. reflexivity.
Qed.

Lemma quiet_step mwc i st :
  no_start_no_append i -> quiet st ->
  quiet (step mwc i st) /\ sink (step mwc i st) = sink st.
Proof.
  intros Hi ((Hsr & Hfd) & Hrun & Hh & Hc & Hpc).
  destruct i; simpl in Hi; try contradiction; simpl.
  - unfold quiet, closed; simpl. auto 10.
  - unfold quiet, closed; simpl. auto 10.
  - unfold worker_step, quiet, closed.
    destruct (pc st) eqn:Epc; simpl.
    1-3: destruct (_exit_thread (lw st)); rewrite ?Hsr; simpl;
      rewrite ?Epc; auto 10.
    + unfold step_wait, wait_over.
      rewrite (get_read_ptr_empty _ Hh Hc), Hsr, orb_true_r. simpl.
      auto 10.
    + destruct Hpc as (Hav & Hpart).
      unfold step_write. rewrite Hav. simpl. auto 10.
    + contradiction.
    + destruct Hpc as (Hav & Hwr & Hpart).
      unfold step_check. rewrite Hav, Hwr, Hpart. simpl.
      rewrite Hsr, Hfd. simpl. rewrite ?app_nil_r. auto 10.
    + rewrite Epc. auto 10.
Qed.

Lemma quiet_exec mwc ins : forall st,
  Forall no_start_no_append ins -> quiet st ->
  quiet (exec mwc ins st) /\ sink (exec mwc ins st) = sink st.
Proof.
  induction ins as [| i ins IH]; intros st Hins Hq; [now auto |].
  inversion Hins as [| ? ? Hi Hins']; subst.
  destruct (quiet_step mwc i st Hi Hq) as (Hq' & E1).
  rewrite exec_cons.
  destruct (IH _ Hins' Hq') as (Hq'' & E2).
  rewrite E2, E1. auto.
Qed.

(** ** The flush counter inside the drain loop *)

Lemma ios_app a b : ios (a ++ b) = ios a ++ ios b.
Proof.
  induction a as [| [? ? ? | ? | ? ?] a IH]; simpl; rewrite ?IH; reflexivity.
Qed.

Lemma count_io_app k a b :
  count_io k (a ++ b) = (count_io k a + count_io k b)%nat.
Proof. induction a as [| x a IH]; simpl; rewrite ?IH; lia. Qed.

Lemma cadence_add c n1 : forall n2,
  cadence c (n1 + n2) = cadence c n1 ++ cadence (cadence_end c n1) n2.
Proof.
  revert c. induction n1 as [| n1 IH]; intros c n2; [reflexivity |].
  simpl. destruct (c + 1 >=? 100); simpl; rewrite IH; reflexivity.
Qed.

Lemma cadence_end_add c n1 : forall n2,
  cadence_end c (n1 + n2) = cadence_end (cadence_end c n1) n2.
Proof.
  revert c. induction n1 as [| n1 IH]; intros c n2; [reflexivity |].
  simpl. apply IH.
Qed.

Lemma count_wr_cadence n : forall c, count_io Wr (cadence c n) = n.
Proof.
  induction n as [| n IH]; intros c; [reflexivity |].
  simpl. destruct (c + 1 >=? 100); simpl; rewrite IH; reflexivity.
Qed.

Lemma one_fsync_per_hundred c :
  0 <= c < 100 -> count_io Fs (cadence c 100) = 1%nat.
Proof.
  intros Hc. replace c with (Z.of_nat (Z.to_nat c)) by lia.
  assert (Z.to_nat c < 100)%nat as Hm by lia.
  revert Hm. generalize (Z.to_nat c) as m. intros m Hm.
  do 100 (destruct m as [| m]; [vm_compute; reflexivity |]).
  lia.
Qed.

Lemma drain_step_cadence mwc i st :
  in_drain st = true -> in_drain (step mwc i st) = true ->
  0 <= poll_count st < 100 ->
  exists evs,
    sink (step mwc i st) = sink st ++ evs
    /\ 0 <= poll_count (step mwc i st) < 100
    /\ ios evs = cadence (poll_count st) (count_io Wr (ios evs))
    /\ poll_count (step mwc i st)
       = cadence_end (poll_count st) (count_io Wr (ios evs)).
Proof.
  intros Hin Hin' Hp.
  assert (Hnil : forall st1, sink st1 = sink st ->
                   poll_count st1 = poll_count st ->
            exists evs, sink st1 = sink st ++ evs
              /\ 0 <= poll_count st1 < 100
              /\ ios evs = cadence (poll_count st) (count_io Wr (ios evs))
              /\ poll_count st1
                 = cadence_end (poll_count st) (count_io Wr (ios evs))).
  { intros st1 E1 E2. exists []. rewrite app_nil_r, E2. auto. }
  destruct i as [data | fd | | | r]; simpl; try (apply Hnil; reflexivity).
  revert Hin'. simpl. unfold worker_step, in_drain in *.
  destruct (pc st) eqn:Epc; try discriminate.
  - unfold step_wait. destruct (get_read_ptr (lw st)) as [[av rp] part].
    destruct (wait_over mwc (lw st)); intros _; apply Hnil; reflexivity.
  - unfold step_write.
    destruct (available st >? 0); [| intros _; apply Hnil; reflexivity].
    rewrite (int_cast_small (poll_count st + 1)) by lia.
    destruct (Z.geb_spec (poll_count st + 1) 100) as [Hge | Hlt];
      destruct (int_cast r <? 0); simpl; try discriminate; intros _;
      eexists; (split; [reflexivity |]); simpl.
    + destruct (Z.geb_spec (poll_count st + 1) 100); [| lia].
      repeat split; lia.
    + destruct (Z.geb_spec (poll_count st + 1) 100); [lia |].
      repeat split; lia.
  - intros _. apply Hnil; reflexivity.
  - unfold step_check. destruct (_ && _); simpl; [discriminate |].
    intros _. apply Hnil; reflexivity.
Qed.

Lemma drain_exec_cadence mwc ins : forall st,
  in_drain st = true -> stays_in_drain mwc ins st = true ->
  0 <= poll_count st < 100 ->
  exists evs,
    sink (exec mwc ins st) = sink st ++ evs
    /\ 0 <= poll_count (exec mwc ins st) < 100
    /\ ios evs = cadence (poll_count st) (count_io Wr (ios evs))
    /\ poll_count (exec mwc ins st)
       = cadence_end (poll_count st) (count_io Wr (ios evs)).
Proof.
  induction ins as [| i ins IH]; intros st Hin Hstay Hp.
  - exists []. rewrite app_nil_r. simpl. auto.
  - simpl in Hstay. apply andb_true_iff in Hstay as [Hin' Hstay].
    destruct (drain_step_cadence mwc i st Hin Hin' Hp)
      as (e1 & E1 & P1 & C1 & F1).
    destruct (IH _ Hin' Hstay P1) as (e2 & E2 & P2 & C2 & F2).
    rewrite exec_cons. exists (e1 ++ e2).
    rewrite E2, E1, app_assoc. split; [reflexivity |].
    split; [assumption |].
    rewrite ios_app, count_io_app, cadence_add, cadence_end_add.
    rewrite <- C1, <- F1, <- C2, <- F2. auto.
Qed.

(** ** The thread's view of the ring is kept *)

Lemma read_pos_write s ptr :
  ring_inv s -> read_pos (snd (write s ptr)) = read_pos s.
Proof.
  intros Hinv. pose proof (ring_inv_write s ptr Hinv) as Hinv'.
  rewrite (read_pos_inv _ Hinv'), (read_pos_inv _ Hinv).
  revert Hinv'. rewrite write_inv by assumption.
  destruct (Z.gtb_spec (Z.of_nat (length ptr)) (_buffer_size s - _count s));
    [reflexivity |].
  intros (_ & _ & Hh' & Hc'). destruct Hinv as (Hbs & Hlen & Hh & Hc).
  simpl in *. unfold write_head in *.
  destruct (Z.gtb_spec (Z.of_nat (length ptr)) (_buffer_size s - _head s));
    destruct (Z.eqb_spec (Z.of_nat (length ptr)) (_buffer_size s - _head s));
    repeat match goal with
           | |- context [Z.ltb ?a ?b] => destruct (Z.ltb_spec a b)
           end; lia.
Qed.

Lemma count_write_le s ptr :
  ring_inv s -> _count s <= _count (snd (write s ptr)).
Proof.
  intros Hinv. rewrite write_inv by assumption.
  destruct (_ >? _); simpl; lia.
Qed.

Lemma get_read_ptr_bounds s av rp part :
  ring_inv s -> get_read_ptr s = (av, rp, part) ->
  rp = read_pos s
  /\ 0 <= av <= _count s
  /\ read_pos s + av <= _buffer_size s
  /\ (av = 0 <-> _count s = 0)
  /\ (part = false -> av = _count s).
Proof.
  intros Hinv E. rewrite get_read_ptr_inv in E by assumption.
  rewrite read_pos_inv by assumption.
  destruct Hinv as (Hbs & Hlen & Hh & Hc).
  destruct (Z.ltb_spec (_head s) (_count s));
    inversion E; subst; repeat split; try lia; discriminate.
Qed.

Lemma sys_inv_step mwc i st :
  sys_inv st -> valid_input i st -> sys_inv (step mwc i st).
Proof.
  intros (Hinv & Hpc) Hv.
  destruct i as [data | fd | | | r]; simpl in *.
  - split; [apply ring_inv_write, Hinv |]. simpl.
    pose proof (count_write_le (lw st) data Hinv).
    destruct (pc st); auto.
    + rewrite read_pos_write, buffer_size_write by assumption. lia.
    + lia.
  - split; [apply ring_inv_start_log, Hinv |]. simpl.
    unfold in_drain in Hv. destruct (pc st); auto; discriminate.
  - split; [exact Hinv | exact Hpc].
  - split; [exact Hinv | exact Hpc].
  - unfold worker_step. destruct (pc st) eqn:Epc.
    1-3: destruct (_exit_thread (lw st)), (_should_run (lw st));
      split; simpl; auto.
    + unfold step_wait.
      destruct (get_read_ptr (lw st)) as [[av rp] part] eqn:E.
      destruct (get_read_ptr_bounds _ _ _ _ Hinv E) as (-> & B1 & B2 & _).
      destruct (wait_over mwc (lw st)); split; simpl; rewrite ?Epc; auto.
    + unfold step_write. specialize (Hv eq_refl).
      destruct (Z.gtb_spec (available st) 0); [| split; simpl; auto].
      assert (Er : int_cast r = r).
      { destruct Hinv as (Hbs & _ & _ & Hc).
        apply int_cast_small. range. }
      rewrite Er.
      destruct (int_cast (poll_count st + 1) >=? 100);
        destruct (Z.ltb_spec r 0); split; simpl; auto; lia.
    + unfold step_mark. split; simpl; auto.
      apply ring_inv_mark_read; assumption.
    + split; [apply ring_inv_step_check, Hinv |].
      unfold step_check. destruct (_ && _); simpl; auto.
    + split; simpl; rewrite ?Epc; auto.
Qed.

Lemma sys_inv_exec mwc ins : forall st,
  sys_inv st -> valid_run mwc ins st -> sys_inv (exec mwc ins st).
Proof.
  induction ins as [| i ins IH]; intros st Hs Hv; [exact Hs |].
  destruct Hv as (Hi & Hv). rewrite exec_cons.
  apply IH; [apply sys_inv_step; assumption | exact Hv].
Qed.

(** ** First in, first out *)

Lemma delivered_app a b : delivered (a ++ b) = delivered a ++ delivered b.
Proof.
  induction a as [| [? ? ? | ? | ? ?] a IH]; simpl; rewrite ?IH;
    rewrite ?app_assoc; reflexivity.
Qed.

Lemma write_rejected_same s ptr :
  ring_inv s -> fst (write s ptr) = false -> snd (write s ptr) = s.
Proof.
  intros Hinv. rewrite write_inv by assumption.
  destruct (_ >? _); simpl; [reflexivity | discriminate].
Qed.

Lemma write_accepted_fits s ptr :
  ring_inv s -> fst (write s ptr) = true ->
  Z.of_nat (length ptr) <= _buffer_size s - _count s.
Proof.
  intros Hinv. rewrite write_inv by assumption.
  destruct (Z.gtb_spec (Z.of_nat (length ptr)) (_buffer_size s - _count s));
    simpl; [discriminate | lia].
Qed.

Lemma fifo_step mwc i st :
  sys_inv st -> in_drain st = true -> _should_run (lw st) = true ->
  match i with
  | IAppend _ => True
  | IWorker r => pc st = PcWrite -> 0 <= r <= available st
  | _ => False
  end ->
  in_drain (step mwc i st) = true
  /\ _should_run (lw (step mwc i st)) = true
  /\ delivered (sink (step mwc i st)) ++ pending (step mwc i st)
     = delivered (sink st) ++ pending st
       ++ match i with
          | IAppend d => if fst (write (lw st) d) then d else []
          | _ => []
          end.
Proof.
  intros (Hinv & Hpc) Hin Hsr Hi.
  pose proof (length_unread _ Hinv) as Hlu.
  destruct i as [data | fd | | | r]; try contradiction; simpl.
  - pose proof (write_flags (lw st) data) as (F1 & _).
    split; [exact Hin |]. split; [rewrite F1; exact Hsr |].
    f_equal. unfold pending; simpl.
    destruct (fst (write (lw st) data)) eqn:Eacc.
    + rewrite unread_write
        by (assumption || (apply write_accepted_fits; assumption)).
      destruct (pc st); try reflexivity.
      apply drop_app_le. lia.
    + rewrite write_rejected_same by assumption.
      rewrite app_nil_r. reflexivity.
  - rewrite app_nil_r. unfold worker_step, in_drain in *.
    destruct (pc st) eqn:Epc; try discriminate.
    + unfold step_wait. destruct (get_read_ptr (lw st)) as [[av rp] part].
      destruct (wait_over mwc (lw st)); unfold pending; simpl;
        rewrite ?Epc; auto.
    + unfold step_write. specialize (Hi eq_refl).
      destruct Hpc as (Hrp & Hav & Hfit).
      destruct (Z.gtb_spec (available st) 0);
        [| unfold pending; simpl; rewrite Epc; auto].
      assert (Er : int_cast r = r).
      { destruct Hinv as (Hbs & _ & _ & Hc).
        apply int_cast_small. range. }
      rewrite Er. destruct (Z.ltb_spec r 0) as [? | _]; [lia |].
      rewrite Hrp, span_unread by (assumption || lia).
      destruct (int_cast (poll_count st + 1) >=? 100); unfold pending;
        simpl; rewrite Epc, delivered_app; simpl;
        (destruct (Z.ltb_spec r 0) as [? | _]; [lia |]);
        rewrite app_nil_r, take_take, Nat.min_l by lia;
        rewrite <- app_assoc, take_drop; auto.
    + unfold step_mark, pending; simpl. rewrite Epc.
      rewrite unread_mark_read by assumption. auto.
    + unfold step_check.
      destruct (available st >? 0); simpl; rewrite Hsr; simpl;
        unfold pending; simpl; rewrite Epc; auto.
Qed.

Lemma fifo_exec mwc ins : forall st,
  sys_inv st -> in_drain st = true -> _should_run (lw st) = true ->
  session_run mwc ins st ->
  in_drain (exec mwc ins st) = true
  /\ _should_run (lw (exec mwc ins st)) = true
  /\ sys_inv (exec mwc ins st)
  /\ delivered (sink (exec mwc ins st)) ++ pending (exec mwc ins st)
     = delivered (sink st) ++ pending st ++ appended mwc ins st.
Proof.
  induction ins as [| i ins IH]; intros st Hs Hin Hsr Hrun.
  - simpl. rewrite app_nil_r. auto.
  - destruct Hrun as (Hi & Hrun).
    destruct (fifo_step mwc i st Hs Hin Hsr Hi) as (Hin' & Hsr' & E).
    assert (Hs' : sys_inv (step mwc i st)).
    { apply sys_inv_step; [assumption |].
      destruct i; simpl in *; try contradiction; auto.
      intros Hp. specialize (Hi Hp). lia. }
    destruct (IH _ Hs' Hin' Hsr' Hrun) as (Hin'' & Hsr'' & Hs'' & E').
    rewrite exec_cons.
    split; [assumption |]. split; [assumption |]. split; [assumption |].
    rewrite E', app_assoc, E. simpl. rewrite <- !app_assoc. reflexivity.
Qed.

(** ** One iteration of the drain loop, the thread running alone *)

Lemma written_spans_app a b :
  written_spans (a ++ b) = written_spans a ++ written_spans b.
Proof.
  induction a as [| [? ? ? | ? | ? ?] a IH]; simpl; rewrite ?IH; reflexivity.
Qed.

Lemma new_events_app st st' evs :
  sink st' = sink st ++ evs -> new_events st st' = evs.
Proof. intros E. unfold new_events. rewrite E. apply drop_app_length. Qed.

Ltac sys_proj :=
  cbn [lw pc poll_count written available read_ptr is_part sink
       _buffer_size _buffer _head _count _should_run _running _exit_thread
       _fd _total_written set_ring set_should_run set_total_written
       goto with_lw enter_drain].

Lemma exec_two mwc a b st :
  exec mwc [a; b] st = step mwc b (step mwc a st).
Proof. reflexivity. Qed.

Lemma step_wait_go mwc r st av rp part :
  pc st = PcWait -> get_read_ptr (lw st) = (av, rp, part) ->
  wait_over mwc (lw st) = true ->
  worker_step mwc r st
  = MkSystem (lw st) PcWrite (poll_count st) (written st) av rp part
      (sink st).
Proof.
  intros Hpc E Hw. unfold worker_step. rewrite Hpc.
  unfold step_wait. rewrite E, Hw. reflexivity.
Qed.

Lemma step_wait_stay mwc r st :
  pc st = PcWait -> wait_over mwc (lw st) = false ->
  worker_step mwc r st = st.
Proof.
  intros Hpc Hw. unfold worker_step. rewrite Hpc.
  unfold step_wait. rewrite Hw.
  destruct (get_read_ptr (lw st)) as [[? ?] ?]. reflexivity.
Qed.

(** Wait and [::write], the call taking the whole run. *)
Lemma drain_write mwc st av rp part :
  pc st = PcWait -> ring_inv (lw st) ->
  get_read_ptr (lw st) = (av, rp, part) ->
  wait_over mwc (lw st) = true -> 0 < av ->
  let st2 := exec mwc [IWorker 0; IWorker av] st in
  pc st2 = PcMark /\ lw st2 = lw st /\ written st2 = av
  /\ available st2 = av /\ is_part st2 = part
  /\ exists evs, sink st2 = sink st ++ evs
       /\ written_spans evs = [span (lw st) rp av]
       /\ delivered evs = span (lw st) rp av
       /\ forallb (fun e => negb (is_close e)) evs = true.
Proof.
  intros Hpc Hinv E Hw Hav.
  destruct (get_read_ptr_bounds _ _ _ _ Hinv E) as (_ & B1 & _).
  assert (Er : int_cast av = av).
  { destruct Hinv as (Hbs & _ & _ & Hc). apply int_cast_small. range. }
  assert (Htake : take (Z.to_nat av) (span (lw st) rp av)
                  = span (lw st) rp av).
  { unfold span. rewrite take_take, Nat.min_id. reflexivity. }
  rewrite exec_two. cbn [step].
  rewrite (step_wait_go mwc 0 st av rp part Hpc E Hw).
  unfold worker_step; sys_proj. unfold step_write; sys_proj.
  destruct (Z.gtb_spec av 0) as [_ | ?]; [| lia].
  rewrite Er. destruct (Z.ltb_spec av 0) as [? | _]; [lia |].
  destruct (int_cast (poll_count st + 1) >=? 100); sys_proj;
    repeat (split; [reflexivity |]);
    eexists; (split; [reflexivity |]); cbn [written_spans delivered];
    (destruct (Z.ltb_spec av 0) as [? | _]; [lia |]);
    rewrite Htake, app_nil_r; auto.
Qed.

Lemma step_mark_go mwc r st :
  pc st = PcMark ->
  worker_step mwc r st
  = goto (with_lw st (mark_read (lw st) (written st))) PcCheck.
Proof. intros Hpc. unfold worker_step. rewrite Hpc. reflexivity. Qed.

(** [mark_read] and the end-of-session check, when the session goes on. *)
Lemma mark_check_on mwc c st :
  pc st = PcMark -> ring_inv (lw st) ->
  0 <= written st <= _count (lw st) ->
  _should_run (lw st) = true \/ is_part st = true ->
  let st2 := exec mwc [IWorker 0; IWorker c] st in
  pc st2 = PcWait /\ sink st2 = sink st
  /\ ring_inv (lw st2)
  /\ _buffer_size (lw st2) = _buffer_size (lw st)
  /\ _buffer (lw st2) = _buffer (lw st)
  /\ _head (lw st2) = _head (lw st)
  /\ _count (lw st2) = _count (lw st) - written st
  /\ _should_run (lw st2) = _should_run (lw st)
  /\ _fd (lw st2) = _fd (lw st)
  /\ unread (lw st2) = drop (Z.to_nat (written st)) (unread (lw st)).
Proof.
  intros Hpc Hinv Hw Hon.
  pose proof (ring_inv_mark_read _ _ Hinv Hw) as Hinv'.
  pose proof (unread_mark_read _ _ Hinv Hw) as Hun.
  revert Hinv' Hun. rewrite mark_read_inv by assumption. intros Hinv' Hun.
  rewrite exec_two. cbn [step].
  rewrite (step_mark_go mwc 0 st Hpc), mark_read_inv by assumption.
  unfold worker_step; sys_proj. unfold step_check; sys_proj.
  assert (Hcond : forall b, negb (_should_run (lw st)) && b
                            && negb (is_part st) = false).
  { intros b. destruct Hon as [-> | ->]; simpl;
      rewrite ?andb_false_r; reflexivity. }
  destruct (available st >? 0); sys_proj; rewrite Hcond; sys_proj;
    repeat (split; [first [reflexivity | exact Hinv'] |]); exact Hun.
Qed.

Lemma length_span s rp av :
  0 <= rp -> 0 <= av -> rp + av <= Z.of_nat (length (_buffer s)) ->
  length (span s rp av) = Z.to_nat av.
Proof.
  intros Hrp Hav Hfit. unfold span. rewrite length_take, length_drop. lia.
Qed.

(** A region that crosses the end of the storage is its tail followed by
    its head segment. *)
Lemma wrapped_split s :
  ring_inv s -> _head s < _count s ->
  span s (read_pos s) (_buffer_size s - read_pos s) ++ span s 0 (_head s)
  = unread s.
Proof.
  intros Hinv Hwrap. pose proof (read_pos_inv s Hinv) as Hrp.
  pose proof Hinv as (Hbs & Hlen & Hh & Hc).
  destruct (Z.ltb_spec (_head s) (_count s)) as [_ | ?]; [| lia].
  apply list_eq; intros i.
  rewrite lookup_app_dec, length_span by lia.
  rewrite !lookup_span, lookup_unread by (assumption || lia).
  repeat case_decide; try lia; try (f_equal; lia).
Qed.

Lemma span_same_buffer s s' rp av :
  _buffer s' = _buffer s -> span s' rp av = span s rp av.
Proof. intros E. unfold span. rewrite E. reflexivity. Qed.

Lemma exec_four mwc a b c d st :
  exec mwc [a; b; c; d] st = exec mwc [c; d] (exec mwc [a; b] st).
Proof. reflexivity. Qed.

(** ** The end of the thread *)

Lemma exit_step mwc r st :
  quiet st -> _exit_thread (lw st) = true ->
  quiet (worker_step mwc r st)
  /\ _exit_thread (lw (worker_step mwc r st)) = true
  /\ sink (worker_step mwc r st) = sink st
  /\ exit_rank (worker_step mwc r st) = Nat.pred (exit_rank st).
Proof.
  intros Hq Hex.
  destruct (quiet_step mwc (IWorker r) st I Hq) as (Hq' & Hs).
  simpl in Hq', Hs. split; [exact Hq' |].
  destruct Hq as ((Hsr & Hfd) & Hrun & Hh & Hc & Hpc).
  unfold worker_step in *. unfold exit_rank.
  destruct (pc st) eqn:Epc; sys_proj.
  - rewrite Hex. sys_proj. auto.
  - rewrite Hex. sys_proj. auto.
  - rewrite Hsr. sys_proj. auto.
  - unfold step_wait, wait_over.
    rewrite (get_read_ptr_empty _ Hh Hc), Hsr, orb_true_r. sys_proj. auto.
  - destruct Hpc as (Hav & Hpart).
    unfold step_write. rewrite Hav. simpl. auto.
  - contradiction.
  - destruct Hpc as (Hav & Hwr & Hpart).
    unfold step_check. rewrite Hav, Hwr, Hpart. simpl. rewrite Hsr, Hfd.
    simpl. rewrite ?app_nil_r. auto.
  - rewrite Epc. auto.
Qed.

Lemma exit_exec mwc rets : forall st,
  quiet st -> _exit_thread (lw st) = true ->
  sink (exec mwc (map IWorker rets) st) = sink st
  /\ exit_rank (exec mwc (map IWorker rets) st)
     = (exit_rank st - length rets)%nat.
Proof.
  induction rets as [| r rets IH]; intros st Hq Hex.
  - simpl. split; [reflexivity | lia].
  - destruct (exit_step mwc r st Hq Hex) as (Hq' & Hex' & Hs & Hr).
    cbn [map]. rewrite exec_cons. cbn [step].
    destruct (IH _ Hq' Hex') as (Hs' & Hr').
    rewrite Hs', Hs, Hr', Hr. cbn [length]. split; [reflexivity | lia].
Qed.

(** ** Draining to the end *)

Lemma drain_alone_done mwc fuel st :
  in_drain st = false -> drain_alone mwc fuel st = st.
Proof. intros H. destruct fuel; simpl; rewrite ?H; reflexivity. Qed.

Lemma drain_alone_step mwc fuel st :
  in_drain st = true ->
  drain_alone mwc (S fuel) st
  = drain_alone mwc fuel (worker_step mwc (full_ret st) st).
Proof. intros H. simpl. rewrite H. reflexivity. Qed.

Lemma drain_alone_wait_write mwc fuel st av rp part :
  pc st = PcWait -> get_read_ptr (lw st) = (av, rp, part) ->
  wait_over mwc (lw st) = true ->
  drain_alone mwc (S (S fuel)) st
  = drain_alone mwc fuel (exec mwc [IWorker 0; IWorker av] st).
Proof.
  intros Hpc E Hw.
  rewrite drain_alone_step by (unfold in_drain; rewrite Hpc; reflexivity).
  rewrite exec_two. cbn [step].
  rewrite !(step_wait_go mwc _ st av rp part Hpc E Hw).
  rewrite drain_alone_step by reflexivity. reflexivity.
Qed.

Lemma drain_alone_mark_check mwc fuel st :
  pc st = PcMark ->
  drain_alone mwc (S (S fuel)) st
  = drain_alone mwc fuel (exec mwc [IWorker 0; IWorker 0] st).
Proof.
  intros Hpc.
  rewrite drain_alone_step by (unfold in_drain; rewrite Hpc; reflexivity).
  rewrite exec_two. cbn [step].
  rewrite !(step_mark_go mwc _ st Hpc).
  rewrite drain_alone_step by reflexivity. reflexivity.
Qed.

(** [mark_read] and the end-of-session check of a stopped session whose
    last run was whole. *)
Lemma mark_check_close mwc c st :
  pc st = PcMark -> ring_inv (lw st) ->
  written st = available st -> 0 < available st <= _count (lw st) ->
  is_part st = false -> _should_run (lw st) = false ->
  0 <= _fd (lw st) ->
  let st2 := exec mwc [IWorker 0; IWorker c] st in
  pc st2 = PcOuter
  /\ sink st2 = sink st ++ [Close_ev (_fd (lw st)) c]
  /\ _head (lw st2) = 0 /\ _count (lw st2) = 0
  /\ _running (lw st2) = false /\ _fd (lw st2) = -1.
Proof.
  intros Hpc Hinv Hw Hav Hpart Hsr Hfd.
  assert (Er : int_cast (available st) = available st).
  { destruct Hinv as (Hbs & _ & _ & Hc). apply int_cast_small. range. }
  rewrite exec_two. cbn [step].
  rewrite (step_mark_go mwc 0 st Hpc).
  unfold worker_step; sys_proj. unfold step_check, mark_read; sys_proj.
  destruct (Z.gtb_spec (available st) 0) as [_ | ?]; [| lia].
  sys_proj. rewrite Hsr, Hpart, Hw, Er, Z.eqb_refl. cbn [negb andb].
  destruct (Z.geb_spec (_fd (lw st)) 0) as [_ | ?]; [| lia].
  sys_proj. auto 10.
Qed.

(** The last pass of a stopped session: the rest of the ring, which does
    not reach the end of the storage, is written and the file closed. *)
Lemma drain_last mwc fuel st :
  pc st = PcWait -> ring_inv (lw st) ->
  _should_run (lw st) = false -> 0 <= _fd (lw st) ->
  _count (lw st) <= _head (lw st) ->
  let st' := drain_alone mwc (4 + fuel) st in
  pc st' = PcOuter
  /\ _head (lw st') = 0 /\ _count (lw st') = 0
  /\ _running (lw st') = false /\ _fd (lw st') = -1
  /\ delivered (sink st') = delivered (sink st) ++ unread (lw st)
  /\ exists evs, sink st' = sink st ++ evs ++ [Close_ev (_fd (lw st)) 0]
       /\ forallb (fun e => negb (is_close e)) evs = true.
Proof.
  intros Hpc Hinv Hsr Hfd Hflat.
  pose proof (get_read_ptr_inv _ Hinv) as Hgp.
  pose proof (length_unread _ Hinv) as Hlu.
  pose proof (read_pos_inv _ Hinv) as Hrp.
  pose proof Hinv as (Hbs & Hlen & Hh & Hc).
  destruct (Z.ltb_spec (_head (lw st)) (_count (lw st))) as [? | _];
    [lia |].
  assert (Hw : wait_over mwc (lw st) = true).
  { unfold wait_over. rewrite Hgp, Hsr. apply orb_true_r. }
  change (4 + fuel)%nat with (S (S (S (S fuel)))). cbv zeta.
  rewrite (drain_alone_wait_write mwc _ st _ _ _ Hpc Hgp Hw).
  destruct (Z.eq_dec (_count (lw st)) 0) as [Hz | Hnz].
  - (* nothing left: no write, the check closes *)
    rewrite exec_two. cbn [step].
    rewrite (step_wait_go mwc 0 st _ _ _ Hpc Hgp Hw).
    unfold worker_step; sys_proj. unfold step_write; sys_proj.
    rewrite Hz. cbn [Z.gtb Z.compare].
    rewrite drain_alone_step by reflexivity.
    unfold full_ret, worker_step; sys_proj. unfold step_check; sys_proj.
    cbn [Z.gtb Z.compare]. rewrite Hsr.
    change (0 =? int_cast 0) with true. cbn [negb andb].
    destruct (Z.geb_spec (_fd (lw st)) 0) as [_ | ?]; [| lia].
    rewrite drain_alone_done by reflexivity. sys_proj.
    repeat (split; [reflexivity |]).
    assert (Hnil : unread (lw st) = []).
    { apply length_zero_iff_nil. lia. }
    rewrite Hnil, delivered_app, app_nil_r. simpl.
    split; [rewrite app_nil_r; reflexivity |].
    exists []. split; reflexivity.
  - (* one whole run, then the check closes *)
    destruct (drain_write mwc st _ _ _ Hpc Hinv Hgp Hw ltac:(lia))
      as (P2 & L2 & W2 & A2 & I2 & e1 & S2 & _ & D1 & N1).
    set (st2 := exec mwc [IWorker 0; IWorker (_count (lw st))] st) in *.
    rewrite (drain_alone_mark_check mwc _ st2 P2).
    destruct (mark_check_close mwc 0 st2 P2) as (P4 & S4 & H4 & C4 & R4 & F4);
      rewrite ?L2, ?W2, ?A2; try assumption; try lia.
    rewrite drain_alone_done
      by (unfold in_drain; rewrite P4; reflexivity).
    rewrite L2 in S4.
    repeat (split; [assumption |]).
    split.
    + rewrite S4, S2, !delivered_app, D1. simpl. rewrite app_nil_r.
      f_equal. rewrite <- Hrp, span_unread by (assumption || lia).
      apply take_ge. lia.
    + exists e1. rewrite S4, S2, <- app_assoc. auto.
Qed.

(** ** No empty write *)

Lemma nonempty_step mwc i st :
  sys_inv st -> valid_input i st ->
  exists evs, sink (step mwc i st) = sink st ++ evs
              /\ Forall nonempty_write evs.
Proof.
  intros (Hinv & Hpc) Hv.
  assert (Hnil : forall st1, sink st1 = sink st ->
            exists evs, sink st1 = sink st ++ evs
                        /\ Forall nonempty_write evs).
  { intros st1 E. exists []. rewrite app_nil_r. auto. }
  destruct i as [data | fd | | | r]; simpl; try (apply Hnil; reflexivity).
  unfold worker_step. destruct (pc st) eqn:Epc.
  1-3: destruct (_exit_thread (lw st)), (_should_run (lw st));
    apply Hnil; reflexivity.
  - unfold step_wait. destruct (get_read_ptr (lw st)) as [[av rp] part].
    destruct (wait_over mwc (lw st)); apply Hnil; reflexivity.
  - unfold step_write. destruct Hpc as (Hrp & Hav & Hfit).
    pose proof (read_pos_inv _ Hinv) as Hrpos.
    destruct Hinv as (Hbs & Hlen & Hh & Hc).
    destruct (Z.gtb_spec (available st) 0); [| apply Hnil; reflexivity].
    assert (Hspan : (0 < length (span (lw st) (read_ptr st)
                                   (available st)))%nat).
    { rewrite length_span; rewrite ?Hrp; try lia;
        destruct (Z.ltb_spec (_head (lw st)) (_count (lw st))); lia. }
    destruct (int_cast (poll_count st + 1) >=? 100);
      destruct (int_cast r <? 0); sys_proj;
      eexists; (split; [reflexivity |]); repeat constructor; exact Hspan.
  - apply Hnil; reflexivity.
  - unfold step_check. destruct (_ && _); sys_proj;
      [| apply Hnil; reflexivity].
    eexists; split; [reflexivity |].
    destruct (_ >=? _); repeat constructor.
  - apply Hnil; reflexivity.
Qed.

Lemma nonempty_exec mwc ins : forall st,
  sys_inv st -> valid_run mwc ins st ->
  exists evs, sink (exec mwc ins st) = sink st ++ evs
              /\ Forall nonempty_write evs.
Proof.
  induction ins as [| i ins IH]; intros st Hs Hv.
  - exists []. rewrite app_nil_r. auto.
  - destruct Hv as (Hi & Hv).
    destruct (nonempty_step mwc i st Hs Hi) as (e1 & E1 & F1).
    destruct (IH _ (sys_inv_step mwc i st Hs Hi) Hv) as (e2 & E2 & F2).
    rewrite exec_cons. exists (e1 ++ e2).
    rewrite E2, E1, app_assoc. split; [reflexivity |].
    apply Forall_app; auto.
Qed.

(** ** Counting the bytes written *)

Lemma size_t_add_congr a b c :
  size_t a = size_t b -> size_t (a + c) = size_t (b + c).
Proof.
  unfold size_t. intros H.
  rewrite (Z.add_mod a), (Z.add_mod b), H by lia. reflexivity.
Qed.

Lemma size_t_add_idemp a b : size_t (size_t (a + size_t b) + 0) = size_t (a + b).
Proof.
  unfold size_t. rewrite Z.add_0_r, Z.mod_mod by lia.
  apply Zplus_mod_idemp_r.
Qed.

Lemma total_step mwc i st :
  sys_inv st -> in_drain st = true -> _should_run (lw st) = true ->
  match i with
  | IAppend _ => True
  | IWorker r => pc st = PcWrite -> 0 <= r <= available st
  | _ => False
  end ->
  (pc st = PcMark -> available st > 0) ->
  exists evs,
    sink (step mwc i st) = sink st ++ evs
    /\ size_t (_total_written (lw (step mwc i st))
               + uncounted (step mwc i st))
       = size_t (_total_written (lw st) + uncounted st
                 + Z.of_nat (length (delivered evs)))
    /\ (pc (step mwc i st) = PcMark -> available (step mwc i st) > 0).
Proof.
  intros (Hinv & Hpc) Hin Hsr Hi Hmark.
  destruct i as [data | fd | | | r]; try contradiction; simpl.
  - pose proof (write_flags (lw st) data) as (_ & _ & _ & _ & F5).
    exists []. rewrite app_nil_r. unfold uncounted; simpl.
    rewrite F5, Z.add_0_r. auto.
  - unfold worker_step, in_drain in *.
    destruct (pc st) eqn:Epc; try discriminate.
    + unfold step_wait. destruct (get_read_ptr (lw st)) as [[av rp] part].
      exists []. rewrite app_nil_r.
      destruct (wait_over mwc (lw st)); unfold uncounted; sys_proj;
        rewrite ?Epc, ?Z.add_0_r; (repeat split; auto); discriminate.
    + unfold step_write. specialize (Hi eq_refl).
      destruct Hpc as (Hrp & Hav & Hfit).
      pose proof (read_pos_inv _ Hinv) as Hrpos.
      pose proof Hinv as (Hbs & Hlen & Hh & Hc).
      destruct (Z.gtb_spec (available st) 0).
      2: { exists []. rewrite app_nil_r. unfold uncounted; sys_proj.
           rewrite Epc. destruct (Z.gtb_spec (available st) 0); [lia |].
           rewrite !Z.add_0_r. repeat split; auto; discriminate. }
      assert (Er : int_cast r = r) by (apply int_cast_small; range).
      assert (Hspan : length (span (lw st) (read_ptr st) (available st))
                      = Z.to_nat (available st)).
      { rewrite length_span; rewrite ?Hrp; try lia;
          destruct (Z.ltb_spec (_head (lw st)) (_count (lw st))); lia. }
      rewrite Er. destruct (Z.ltb_spec r 0) as [? | _]; [lia |].
      destruct (int_cast (poll_count st + 1) >=? 100); sys_proj;
        (eexists; split; [reflexivity |]); unfold uncounted; sys_proj;
        rewrite Epc; cbn [delivered];
        (destruct (Z.ltb_spec r 0) as [? | _]; [lia |]);
        rewrite app_nil_r, length_take, Hspan;
        (split; [f_equal; lia | intros _; lia]).
    + exists []. rewrite app_nil_r. unfold step_mark, uncounted; sys_proj.
      rewrite Epc. specialize (Hmark eq_refl).
      destruct (Z.gtb_spec (available st) 0); [| lia].
      unfold mark_read; sys_proj. rewrite Z.add_0_r.
      repeat split; auto; discriminate.
    + exists []. rewrite app_nil_r. unfold step_check, uncounted.
      rewrite Epc.
      destruct (available st >? 0); sys_proj; rewrite Hsr;
        cbn [negb andb]; sys_proj; rewrite ?size_t_add_idemp, ?Z.add_0_r;
        repeat split; auto; discriminate.
Qed.

Lemma total_exec mwc ins : forall st,
  sys_inv st -> in_drain st = true -> _should_run (lw st) = true ->
  session_run mwc ins st ->
  (pc st = PcMark -> available st > 0) ->
  exists evs,
    sink (exec mwc ins st) = sink st ++ evs
    /\ size_t (_total_written (lw (exec mwc ins st))
               + uncounted (exec mwc ins st))
       = size_t (_total_written (lw st) + uncounted st
                 + Z.of_nat (length (delivered evs))).
Proof.
  induction ins as [| i ins IH]; intros st Hs Hin Hsr Hrun Hmark.
  - exists []. rewrite app_nil_r. simpl. rewrite Z.add_0_r. auto.
  - destruct Hrun as (Hi & Hrun).
    destruct (fifo_step mwc i st Hs Hin Hsr Hi) as (Hin' & Hsr' & _).
    destruct (total_step mwc i st Hs Hin Hsr Hi Hmark)
      as (e1 & E1 & T1 & Hmark').
    assert (Hs' : sys_inv (step mwc i st)).
    { apply sys_inv_step; [assumption |].
      destruct i; simpl in *; try contradiction; auto.
      intros Hp. specialize (Hi Hp). lia. }
    destruct (IH _ Hs' Hin' Hsr' Hrun Hmark') as (e2 & E2 & T2).
    rewrite exec_cons. exists (e1 ++ e2).
    rewrite E2, E1, app_assoc. split; [reflexivity |].
    rewrite T2, delivered_app, length_app, Nat2Z.inj_add.
    rewrite (size_t_add_congr _ _ _ T1). f_equal. lia.
Qed.

(** ** The descriptor of a running session *)

Lemma session_fd_step mwc i st :
  in_drain st = true -> _should_run (lw st) = true ->
  match i with
  | IAppend _ => True
  | IWorker r => pc st = PcWrite -> 0 <= r <= available st
  | _ => False
  end ->
  0 <= available st <= INT_MAX \/ pc st <> PcWrite ->
  _fd (lw (step mwc i st)) = _fd (lw st).
Proof.
  intros Hin Hsr Hi Hav.
  destruct i as [data | fd | | | r]; try contradiction; simpl.
  - apply (write_flags (lw st) data).
  - unfold worker_step, in_drain in *.
    destruct (pc st) eqn:Epc; try discriminate.
    + unfold step_wait. destruct (get_read_ptr (lw st)) as [[av rp] part].
      destruct (wait_over mwc (lw st)); reflexivity.
    + unfold step_write. specialize (Hi eq_refl).
      destruct Hav as [Hav | ?]; [| congruence].
      destruct (available st >? 0); [| reflexivity].
      rewrite (int_cast_small r) by range.
      destruct (Z.ltb_spec r 0); [lia |].
      destruct (_ >=? _); reflexivity.
    + reflexivity.
    + unfold step_check.
      destruct (available st >? 0); sys_proj; rewrite Hsr; reflexivity.
Qed.

Lemma session_fd_exec mwc ins : forall st,
  sys_inv st -> in_drain st = true -> _should_run (lw st) = true ->
  session_run mwc ins st ->
  _fd (lw (exec mwc ins st)) = _fd (lw st).
Proof.
  induction ins as [| i ins IH]; intros st Hs Hin Hsr Hrun; [reflexivity |].
  destruct Hrun as (Hi & Hrun).
  destruct (fifo_step mwc i st Hs Hin Hsr Hi) as (Hin' & Hsr' & _).
  assert (Hs' : sys_inv (step mwc i st)).
  { apply sys_inv_step; [assumption |].
    destruct i; simpl in *; try contradiction; auto.
    intros Hp. specialize (Hi Hp). lia. }
  rewrite exec_cons, (IH _ Hs' Hin' Hsr' Hrun).
  apply session_fd_step; try assumption.
  destruct Hs as ((Hbs & _ & _ & Hc) & Hpc).
  destruct (pc st); try (right; discriminate).
  left. range.
Qed.

(** The drain of a stopped session from the top of the loop. *)
Lemma drain_stopped mwc st :
  pc st = PcWait -> ring_inv (lw st) ->
  _should_run (lw st) = false -> 0 <= _fd (lw st) ->
  let st' := drain_alone mwc 8 st in
  pc st' = PcOuter
  /\ _head (lw st') = 0 /\ _count (lw st') = 0
  /\ _running (lw st') = false /\ _fd (lw st') = -1
  /\ delivered (sink st') = delivered (sink st) ++ unread (lw st)
  /\ exists evs, sink st' = sink st ++ evs ++ [Close_ev (_fd (lw st)) 0]
       /\ forallb (fun e => negb (is_close e)) evs = true.
Proof.
  intros Hpc Hinv Hsr Hfd.
  destruct (Z.le_gt_cases (_count (lw st)) (_head (lw st))) as [Hflat | Hwrap].
  { exact (drain_last mwc 4 st Hpc Hinv Hsr Hfd Hflat). }
  pose proof (get_read_ptr_inv _ Hinv) as Hgp.
  pose proof (read_pos_inv _ Hinv) as Hrp.
  pose proof (length_unread _ Hinv) as Hlu.
  pose proof Hinv as (Hbs & Hlen & Hh & Hc).
  destruct (Z.ltb_spec (_head (lw st)) (_count (lw st))) as [_ | ?];
    [| lia].
  assert (Hw : wait_over mwc (lw st) = true).
  { unfold wait_over. rewrite Hgp, Hsr. apply orb_true_r. }
  change 8%nat with (S (S (S (S (4 + 0))))). cbv zeta.
  rewrite (drain_alone_wait_write mwc _ st _ _ _ Hpc Hgp Hw).
  destruct (drain_write mwc st _ _ _ Hpc Hinv Hgp Hw ltac:(lia))
    as (P2 & L2 & W2 & A2 & I2 & e1 & S2 & _ & D1 & N1).
  set (st2 := exec mwc [IWorker 0;
                        IWorker (_count (lw st) - _head (lw st))] st) in *.
  rewrite (drain_alone_mark_check mwc _ st2 P2).
  destruct (mark_check_on mwc 0 st2 P2) as
    (P4 & S4 & Hinv4 & Bs4 & Bf4 & H4 & C4 & R4 & F4 & U4);
    [rewrite L2; exact Hinv | rewrite L2, W2; lia | right; exact I2 |].
  set (st4 := exec mwc [IWorker 0; IWorker 0] st2) in *.
  rewrite L2 in Bs4, Bf4, H4, C4, R4, F4, U4. rewrite W2 in C4, U4.
  destruct (drain_last mwc 0 st4 P4 Hinv4) as
    (Q1 & Q2 & Q3 & Q4 & Q5 & Q6 & evs & Q7 & Q8);
    [rewrite R4; exact Hsr | rewrite F4; exact Hfd | rewrite H4, C4; lia |].
  repeat (split; [assumption |]).
  split.
  - rewrite Q6, S4, S2, delivered_app, D1, U4, <- app_assoc. f_equal.
    rewrite <- Hrp, span_unread by (assumption || lia).
    apply take_drop.
  - exists (e1 ++ evs). rewrite Q7, S4, S2, F4, <- !app_assoc.
    split; [reflexivity |].
    rewrite forallb_app, N1, Q8. reflexivity.
Qed.


(** ** What [::write] is handed *)

Lemma write_step_span mwc r st :
  sys_inv st -> pc st = PcWrite -> available st > 0 ->
  (exists more,
     sink (worker_step mwc r st)
     = sink st
       ++ Write_ev (_fd (lw st))
            (span (lw st) (read_ptr st) (available st)) r :: more
     /\ written_spans more = [])
  /\ 0 <= read_ptr st
  /\ read_ptr st + available st <= _buffer_size (lw st)
  /\ _buffer_size (lw st) = Z.of_nat (length (_buffer (lw st)))
  /\ span (lw st) (read_ptr st) (available st)
     = take (Z.to_nat (available st)) (unread (lw st)).
Proof.
  intros (Hinv & Hpc) Epc Hav. rewrite Epc in Hpc.
  destruct Hpc as (Hrp & Hb & Hfit).
  pose proof (read_pos_inv _ Hinv) as Hrpos.
  pose proof Hinv as (Hbs & Hlen & Hh & Hc).
  repeat apply conj.
  - unfold worker_step. rewrite Epc. unfold step_write.
    destruct (Z.gtb_spec (available st) 0); [| lia].
    destruct (int_cast (poll_count st + 1) >=? 100);
      destruct (int_cast r <? 0); sys_proj;
      eexists; split; reflexivity.
  - rewrite Hrp. destruct (Z.ltb_spec (_head (lw st)) (_count (lw st))); lia.
  - rewrite Hrp. exact Hfit.
  - lia.
  - rewrite Hrp. apply span_unread; [assumption | lia | assumption].
Qed.

(** * The claims *)

(** C2. Whenever the payload is larger than [_buffer_size - _count],
    [write] returns [false] and the object (cursor, count and buffer
    contents included) is unchanged: an overflowing payload is rejected
    whole. *)
Theorem write_overflow_rejected s ptr :
  0 <= _count s <= _buffer_size s ->
  _buffer_size s < 2 ^ 32 ->
  Z.of_nat (length ptr) > _buffer_size s - _count s ->
  write s ptr = (false, s)
  /\ _count (snd (write s ptr)) = _count s
  /\ _head (snd (write s ptr)) = _head s
  /\ _buffer (snd (write s ptr)) = _buffer s.
Proof.
  intros Hc Hbs Hov.
  assert (write s ptr = (false, s)) as ->; [| now repeat split].
  unfold write. rewrite size_t_small by lia.
  destruct (Z.gtb_spec (Z.of_nat (length ptr)) (_buffer_size s - _count s));
    [reflexivity | lia].
Qed.

(** The spec's scenario: 900 bytes stored in 1024, a 200-byte payload. *)
Lemma write_overflow_rejected_witness :
  _count demo_900 = 900
  /\ write demo_900 (payload 200 Byte.x02) = (false, demo_900).
Proof.
  split; [reflexivity |].
  apply (write_overflow_rejected demo_900 (payload 200 Byte.x02));
    vm_compute; intuition congruence.
Defined.

(** C3, as stated, fails when the unread region ends exactly at the end of
    the storage: [read_pos + _count] equals the capacity, does not exceed
    it, and [get_read_ptr] still reports a partial run. *)
Lemma get_read_ptr_partial_at_boundary :
  ring_inv demo_full
  /\ get_read_ptr demo_full
     <> (if read_pos demo_full + _count demo_full >? _buffer_size demo_full
         then (_buffer_size demo_full - read_pos demo_full,
               read_pos demo_full, true)
         else (_count demo_full, read_pos demo_full, false)).
Proof.
  split.
  - unfold ring_inv. vm_compute. intuition congruence.
  - vm_compute. congruence.
Qed.

(** C3, amended. [get_read_ptr] starts at
    [read_pos = (_head - _count) mod _buffer_size]; if
    [read_pos + _count] reaches or exceeds the capacity it returns the tail
    segment from [read_pos] to the capacity with [is_part = true], and
    otherwise the whole unread region, of length [_count], with
    [is_part = false].  Either way the span returned is a prefix of the
    unread region. *)
Theorem get_read_ptr_run s :
  ring_inv s ->
  get_read_ptr s =
    (if read_pos s + _count s >=? _buffer_size s
     then (_buffer_size s - read_pos s, read_pos s, true)
     else (_count s, read_pos s, false))
  /\ (let '(av, rp, _) := get_read_ptr s in
      span s rp av = take (Z.to_nat av) (unread s))
  /\ (read_pos s + _count s < _buffer_size s ->
      let '(av, rp, _) := get_read_ptr s in span s rp av = unread s).
Proof.
  intros Hinv. pose proof (get_read_ptr_read_pos s Hinv) as E.
  pose proof (read_pos_inv s Hinv) as Hrp.
  pose proof (length_unread s Hinv) as Hlu.
  pose proof Hinv as (Hbs & Hlen & Hh & Hc).
  split; [exact E |]. rewrite E.
  destruct (Z.geb_spec (read_pos s + _count s) (_buffer_size s)).
  - split; [| lia]. apply span_unread; [assumption | |]; 
      destruct (Z.ltb_spec (_head s) (_count s)); lia.
  - split; [apply span_unread; [assumption | |]; lia |].
    intros _. rewrite span_unread by (assumption || lia).
    apply take_ge. lia.
Qed.

Lemma get_read_ptr_run_witness :
  get_read_ptr demo_full = (1024, 0, true)
  /\ get_read_ptr demo_900 = (900, 0, false).
Proof.
  assert (Hfull : ring_inv demo_full)
    by (unfold ring_inv; vm_compute; intuition congruence).
  assert (H900 : ring_inv demo_900)
    by (unfold ring_inv; vm_compute; intuition congruence).
  destruct (get_read_ptr_run demo_full Hfull) as (E1 & _).
  destruct (get_read_ptr_run demo_900 H900) as (E2 & _).
  rewrite E1, E2. split; vm_compute; reflexivity.
Defined.

(** C8. On a well-formed ring ([0 <= _head < _buffer_size],
    [0 <= _count <= _buffer_size]) the unread bytes are the circular range
    of length [_count] that starts at [(_head - _count) mod _buffer_size]
    and ends at [_head]; [write] (accepted or rejected), [mark_read] of at
    most [_count] bytes, [start_log] and the reset at the end of a session
    keep the ring well formed, and they treat the range as a queue: an
    accepted [write] appends its payload, [mark_read] drops the oldest
    bytes, the resets empty it. *)
Theorem ring_invariant_preserved s :
  ring_inv s ->
  (Z.of_nat (length (unread s)) = _count s
   /\ (read_pos s + _count s) mod _buffer_size s = _head s)
  /\ (forall ptr,
        ring_inv (snd (write s ptr))
        /\ (Z.of_nat (length ptr) <= _buffer_size s - _count s ->
            fst (write s ptr) = true
            /\ unread (snd (write s ptr)) = unread s ++ ptr))
  /\ (forall n, 0 <= n <= _count s ->
        ring_inv (mark_read s n)
        /\ _head (mark_read s n) = _head s
        /\ _count (mark_read s n) = _count s - n
        /\ unread (mark_read s n) = drop (Z.to_nat n) (unread s))
  /\ (forall fd,
        ring_inv (start_log s fd)
        /\ (0 <= fd -> _head (start_log s fd) = 0
                       /\ _count (start_log s fd) = 0))
  /\ (forall st ret, lw st = s ->
        ring_inv (lw (step_check ret st))
        /\ (pc (step_check ret st) = PcOuter ->
            _head (lw (step_check ret st)) = 0
            /\ _count (lw (step_check ret st)) = 0)).
Proof.
  intros Hinv. pose proof Hinv as (Hbs & Hlen & Hh & Hc).
  repeat apply conj.
  - apply length_unread, Hinv.
  - rewrite read_pos_inv by assumption.
    destruct (Z.ltb_spec (_head s) (_count s)).
    + symmetry. apply Z.mod_unique with (q := 1); lia.
    + replace (_head s - _count s + _count s) with (_head s) by lia.
      apply Z.mod_small. lia.
  - intros ptr. split; [apply ring_inv_write, Hinv |].
    intros Hfit. split; [| apply unread_write; assumption].
    rewrite write_inv by assumption.
    destruct (Z.gtb_spec (Z.of_nat (length ptr)) (_buffer_size s - _count s));
      [lia | reflexivity].
  - intros n Hn. split; [apply ring_inv_mark_read; assumption |].
    split; [| split; [| apply unread_mark_read; assumption]];
      rewrite mark_read_inv by assumption; reflexivity.
  - intros fd. split; [apply ring_inv_start_log, Hinv |].
    intros Hfd. unfold start_log.
    destruct (Z.ltb_spec fd 0); [lia | split; reflexivity].
  - intros st ret <-. split; [apply ring_inv_step_check, Hinv |].
    unfold step_check. destruct (_ && _); simpl; [split; reflexivity |].
    discriminate.
Qed.

Lemma ring_invariant_preserved_witness :
  unread (snd (write demo_900 (payload 100 Byte.x02)))
  = unread demo_900 ++ payload 100 Byte.x02.
Proof.
  assert (H900 : ring_inv demo_900)
    by (unfold ring_inv; vm_compute; intuition congruence).
  destruct (ring_invariant_preserved demo_900 H900) as (_ & Hw & _).
  destruct (Hw (payload 100 Byte.x02)) as (_ & Happ).
  apply Happ. vm_compute. congruence.
Defined.

(** C9, as stated, fails for a small requested size: the capacity is then
    exactly [_min_write_chunk + 300] and does not exceed it. *)
Lemma capacity_not_above_margin :
  ~ _buffer_size (LogWriter_ctor 300 100) > 300 + 300.
Proof. vm_compute. intros H. discriminate H. Qed.

(** C9, amended. The capacity is the maximum of the requested size and
    [_min_write_chunk + 300], so it is at least [_min_write_chunk + 300]
    and exceeds [_min_write_chunk]; no later operation changes it. *)
Theorem capacity_at_least_margin mwc buffer_size :
  0 <= mwc -> mwc + 300 < 2 ^ 32 ->
  _buffer_size (LogWriter_ctor mwc buffer_size)
  = Z.max buffer_size (mwc + 300)
  /\ _buffer_size (LogWriter_ctor mwc buffer_size) >= mwc + 300
  /\ _buffer_size (LogWriter_ctor mwc buffer_size) > mwc
  /\ (forall fill,
        _buffer_size (init fill (LogWriter_ctor mwc buffer_size))
        = _buffer_size (LogWriter_ctor mwc buffer_size))
  /\ (forall mwc' i st,
        _buffer_size (lw (step mwc' i st)) = _buffer_size (lw st)).
Proof.
  intros Hm Hr. unfold LogWriter_ctor at 1 2 3. simpl.
  rewrite size_t_small by lia.
  repeat apply conj; try lia; try reflexivity.
  intros. apply buffer_size_step.
Qed.

Lemma capacity_at_least_margin_witness :
  _buffer_size (LogWriter_ctor 300 100) = 600
  /\ _buffer_size (LogWriter_ctor 300 1024) = 1024.
Proof.
  destruct (capacity_at_least_margin 300 100 ltac:(lia) ltac:(lia))
    as (E1 & _).
  destruct (capacity_at_least_margin 300 1024 ltac:(lia) ltac:(lia))
    as (E2 & _).
  rewrite E1, E2. split; reflexivity.
Defined.

(** C7. In the drain loop the thread leaves the wait for data, and goes on
    to write the run [get_read_ptr] returned, exactly when the run is at
    least [_min_write_chunk] long, or is partial, or [_should_run] is
    false; otherwise it stays parked on the condition variable.  With a
    capacity of 1024 and a threshold of 300, 200 appended bytes leave the
    thread parked, and 150 more make it write all 350 and consume them. *)
Theorem wait_for_sufficient_data mwc ret st :
  pc st = PcWait ->
  (let '(av, rp, part) := get_read_ptr (lw st) in
   (av >= mwc \/ part = true \/ _should_run (lw st) = false ->
    worker_step mwc ret st
    = MkSystem (lw st) PcWrite (poll_count st) (written st) av rp part
        (sink st))
   /\ (~ (av >= mwc \/ part = true \/ _should_run (lw st) = false) ->
       worker_step mwc ret st = st))
  /\ (_buffer_size (lw demo_parked) = 1024
      /\ _count (lw demo_parked) = 200
      /\ pc demo_parked = PcWait
      /\ worker_step 300 ret demo_parked = demo_parked
      /\ sink demo_parked = []
      /\ sink demo_woken
         = [Write_ev 3 (payload 200 Byte.x01 ++ payload 150 Byte.x02) 350]
      /\ _count (lw demo_woken) = 0).
Proof.
  intros Hpc. split.
  - unfold worker_step. rewrite Hpc. unfold step_wait, wait_over.
    destruct (get_read_ptr (lw st)) as [[av rp] part].
    destruct (Z.geb_spec av mwc) as [Hge | Hlt];
      destruct part; destruct (_should_run (lw st)); simpl;
      split; intros H; try reflexivity; try (exfalso; apply H; auto; lia).
    destruct H as [H | [H | H]]; (lia || discriminate).
  - repeat split; vm_compute; reflexivity.
Qed.

Lemma wait_for_sufficient_data_witness :
  worker_step 300 0 demo_parked = demo_parked.
Proof.
  assert (Hpc : pc demo_parked = PcWait) by (vm_compute; reflexivity).
  destruct (wait_for_sufficient_data 300 0 demo_parked Hpc)
    as (_ & _ & _ & _ & Hstay & _).
  exact Hstay.
Defined.

(** C10, as stated, fails when the thread is told to end: after the
    failed [::write] the thread parks with the descriptor open; a
    [thread_stop] and a wake-up send it through the drain loop once more,
    where it writes the span again, closes the descriptor and clears
    [_running], with no [start_log]. *)
Lemma write_error_then_thread_stop_closes :
  _fd (lw demo_error) = 3
  /\ _running (lw demo_error) = true
  /\ Forall no_start exit_after_error_run
  /\ _fd (lw (exec 300 exit_after_error_run demo_error)) = -1
  /\ _running (lw (exec 300 exit_after_error_run demo_error)) = false
  /\ new_events demo_error (exec 300 exit_after_error_run demo_error)
     = [Write_ev 3 (payload 200 Byte.x01 ++ payload 150 Byte.x02) 350;
        Close_ev 3 0].
Proof.
  repeat apply conj; try (vm_compute; reflexivity).
  repeat constructor.
Qed.

(** C10, amended. When [::write] returns a negative result the thread
    clears [_should_run] and leaves the drain loop at once: the descriptor
    is not closed, [_head] and [_count] are not reset and [_running] is
    not cleared.  While the thread is not told to end, nothing the
    producer, [stop_log] or the thread itself does changes [_fd] or
    [_running] or reaches the sink again; the next [start_log] that opens
    a file replaces them. *)
Theorem write_error_leaves_session_open mwc ret st :
  pc st = PcWrite -> available st > 0 -> - 2 ^ 31 <= ret < 0 ->
  let st' := worker_step mwc ret st in
  _should_run (lw st') = false
  /\ pc st' = PcOuter
  /\ _fd (lw st') = _fd (lw st)
  /\ _head (lw st') = _head (lw st)
  /\ _count (lw st') = _count (lw st)
  /\ _running (lw st') = _running (lw st)
  /\ (exists evs, sink st' = sink st ++ evs
                  /\ forallb (fun e => negb (is_close e)) evs = true)
  /\ (_exit_thread (lw st) = false ->
      forall ins, Forall no_start_no_exit ins ->
        let st'' := exec mwc ins st' in
        _fd (lw st'') = _fd (lw st)
        /\ _running (lw st'') = _running (lw st)
        /\ sink st'' = sink st'
        /\ forall fd, 0 <= fd ->
             _fd (lw (step mwc (IStartLog fd) st'')) = fd
             /\ _running (lw (step mwc (IStartLog fd) st'')) = true).
Proof.
  intros Hpc Hav Hret st'. subst st'.
  unfold worker_step. rewrite Hpc. unfold step_write.
  destruct (Z.gtb_spec (available st) 0) as [_ | ?]; [| lia].
  rewrite (int_cast_small ret) by lia.
  destruct (Z.ltb_spec ret 0) as [_ | ?]; [| lia].
  destruct (int_cast (poll_count st + 1) >=? 100); simpl.
  all: repeat apply conj; try reflexivity.
  all: try (eexists; split; reflexivity).
  all: intros Hex ins Hins;
    match goal with
    | |- context [exec ?m ?l ?s] =>
        destruct (parked_exec m l s Hins) as (_ & E1 & E2 & E3);
          [unfold parked; simpl; auto |]
    end;
    rewrite E1, E2, E3; simpl; repeat apply conj; try reflexivity;
    intros fd Hfd; unfold start_log;
    destruct (Z.ltb_spec fd 0); [lia | split; reflexivity].
Qed.

Lemma write_error_leaves_session_open_witness :
  _should_run (lw (worker_step 300 (-1) demo_writing)) = false
  /\ _fd (lw (worker_step 300 (-1) demo_writing)) = 3
  /\ _running (lw (worker_step 300 (-1) demo_writing)) = true.
Proof.
  pose proof (write_error_leaves_session_open 300 (-1) demo_writing
                eq_refl eq_refl ltac:(lia)) as (H1 & _ & H3 & _ & _ & H6 & _).
  split; [exact H1 |]. split; [rewrite H3 | rewrite H6]; reflexivity.
Defined.

(** C6, as stated, fails for its last part: after the close, a payload
    appended late and a [thread_stop] make the woken thread call
    [::write], on the invalid handle [-1], without any [start_log]. *)
Lemma closed_session_late_append_write :
  pc demo_closing_full = PcCheck
  /\ _should_run (lw demo_closing_full) = false
  /\ written demo_closing_full = int_cast (available demo_closing_full)
  /\ is_part demo_closing_full = false
  /\ demo_closed_full = worker_step 300 0 demo_closing_full
  /\ Forall no_start late_append_run
  /\ new_events demo_closed_full (exec 300 late_append_run demo_closed_full)
     = [Write_ev (-1) (payload 10 Byte.x05) (-1)].
Proof.
  repeat apply conj; try (vm_compute; reflexivity).
  repeat constructor.
Qed.

(** C6, amended. [stop_log] clears [_should_run].  When the thread then
    reaches the end-of-session check with a write that took the whole
    run, the run not being partial, it closes the descriptor (one
    [::close]), resets [_head] and [_count] to zero, clears [_running]
    and leaves the drain loop.  From then on, until a [start_log],
    nothing closes again and nothing is written to the closed
    descriptor; the sink sees no call at all as long as nothing is
    appended or the thread is not told to end; only a late append
    together with [thread_stop] makes the thread call [::write], and then
    on the invalid handle [-1]. *)
Theorem session_closed_once mwc ret st :
  pc st = PcCheck ->
  _should_run (lw st) = false ->
  written st = int_cast (available st) ->
  is_part st = false ->
  0 <= _fd (lw st) ->
  let st' := worker_step mwc ret st in
  (forall s, _should_run (stop_log s) = false)
  /\ sink st' = sink st ++ [Close_ev (_fd (lw st)) ret]
  /\ _head (lw st') = 0
  /\ _count (lw st') = 0
  /\ _running (lw st') = false
  /\ _fd (lw st') = -1
  /\ pc st' = PcOuter
  /\ (forall ins, Forall no_start ins ->
        exists evs, sink (exec mwc ins st') = sink st' ++ evs
                    /\ Forall on_closed_handle evs)
  /\ (forall ins, Forall no_start_no_append ins ->
        sink (exec mwc ins st') = sink st'
        /\ _running (lw (exec mwc ins st')) = false
        /\ _head (lw (exec mwc ins st')) = 0
        /\ _count (lw (exec mwc ins st')) = 0)
  /\ (_exit_thread (lw st) = false ->
      forall ins, Forall no_start_no_exit ins ->
        sink (exec mwc ins st') = sink st'
        /\ _running (lw (exec mwc ins st')) = false
        /\ _fd (lw (exec mwc ins st')) = -1).
Proof.
  intros Hpc Hsr Hw Hpart Hfd st'.
  assert (E : st' =
    MkSystem
      (MkLogWriter (_buffer_size (lw st)) (_buffer (lw st)) 0 0 false false
         (_exit_thread (lw st)) (-1)
         (if available st >? 0
          then size_t (_total_written (lw st) + size_t (written st))
          else _total_written (lw st)))
      PcOuter (poll_count st) (written st) (available st) (read_ptr st)
      (is_part st) (sink st ++ [Close_ev (_fd (lw st)) ret])).
  { subst st'. unfold worker_step. rewrite Hpc. unfold step_check.
    destruct (available st >? 0); simpl; rewrite Hsr, Hpart, Hw, Z.eqb_refl;
      simpl; destruct (Z.geb_spec (_fd (lw st)) 0); try lia; reflexivity. }
  rewrite E. simpl. repeat apply conj; try reflexivity.
  - intros ins Hins. apply closed_exec; [assumption |].
    unfold closed; simpl; auto.
  - intros ins Hins.
    match goal with
    | |- context [exec ?m ?l ?s] =>
        destruct (quiet_exec m l s Hins)
          as ((_ & Hr & Hh & Hc & _) & Hs);
          [unfold quiet, closed; simpl; auto 10 |]
    end.
    auto.
  - intros Hex ins Hins.
    match goal with
    | |- context [exec ?m ?l ?s] =>
        destruct (parked_exec m l s Hins) as (_ & E1 & E2 & E3);
          [unfold parked; simpl; auto |]
    end.
    rewrite E1, E2, E3. auto.
Qed.

Lemma session_closed_once_witness :
  sink (worker_step 300 0 demo_closing_full)
  = sink demo_closing_full ++ [Close_ev 3 0]
  /\ _running (lw (worker_step 300 0 demo_closing_full)) = false
  /\ _count (lw (worker_step 300 0 demo_closing_full)) = 0.
Proof.
  assert (Hpc : pc demo_closing_full = PcCheck) by (vm_compute; reflexivity).
  assert (Hsr : _should_run (lw demo_closing_full) = false)
    by (vm_compute; reflexivity).
  assert (Hw : written demo_closing_full
               = int_cast (available demo_closing_full))
    by (vm_compute; reflexivity).
  assert (Hp : is_part demo_closing_full = false)
    by (vm_compute; reflexivity).
  assert (Hfd : 0 <= _fd (lw demo_closing_full))
    by (vm_compute; congruence).
  pose proof (session_closed_once 300 0 demo_closing_full Hpc Hsr Hw Hp Hfd)
    as (_ & H2 & _ & H4 & H5 & _).
  replace (_fd (lw demo_closing_full)) with 3 in H2
    by (vm_compute; reflexivity).
  split; [exact H2 |]. split; [exact H5 | exact H4].
Defined.

(** C4. The drain loop is entered with the flush counter at zero.  Over
    any stretch of the drain loop that makes 100 calls of [::write] (all
    successful: a failed one leaves the loop), exactly one [::fsync] is
    issued; counted from a counter at zero (drain loop entry, or the
    previous forced flush), the [::fsync] comes directly after the 100th
    [::write], and the counter is zero again after it. *)
Theorem fsync_every_100_writes mwc ins st :
  in_drain st = true ->
  0 <= poll_count st < 100 ->
  stays_in_drain mwc ins st = true ->
  count_io Wr (ios (new_events st (exec mwc ins st))) = 100%nat ->
  poll_count (enter_drain st) = 0
  /\ count_io Fs (ios (new_events st (exec mwc ins st))) = 1%nat
  /\ (poll_count st = 0 ->
      ios (new_events st (exec mwc ins st)) = replicate 100 Wr ++ [Fs]
      /\ poll_count (exec mwc ins st) = 0).
Proof.
  intros Hin Hp Hstay.
  destruct (drain_exec_cadence mwc ins st Hin Hstay Hp)
    as (evs & E & P & C & F).
  unfold new_events. rewrite E, drop_app_length.
  intros Hn. rewrite Hn in C, F. split; [reflexivity |].
  split.
  - rewrite C. apply one_fsync_per_hundred, Hp.
  - intros H0. rewrite H0 in C, F. rewrite C, F.
    split; vm_compute; reflexivity.
Qed.

Lemma fsync_every_100_writes_witness :
  ios (new_events demo_active (exec 300 hundred_writes demo_active))
  = replicate 100 Wr ++ [Fs].
Proof.
  apply (fsync_every_100_writes 300 hundred_writes demo_active);
    vm_compute; (reflexivity || (split; congruence)).
Defined.

(** C1 fails at the end of a session.  The end-of-session check compares
    the result of [::write] with the length computed before the call; a
    payload accepted while the call was in flight is still in the ring
    when [stop_log] has been called, and the check resets [_count] and
    closes the file all the same (the source's comment on that check:
    stop only when all data written).  Here 350 + 100 bytes were accepted,
    in a ring of 1024, and 350 reached the sink. *)
Theorem stop_during_write_drops_data :
  fst (write demo_writer (payload 200 Byte.x01)) = true
  /\ fst (write (lw demo_parked) (payload 150 Byte.x02)) = true
  /\ fst (write (lw demo_writing) (payload 100 Byte.x04)) = true
  /\ sink demo_race
     = [Write_ev 3 (payload 200 Byte.x01 ++ payload 150 Byte.x02) 350;
        Close_ev 3 0]
  /\ delivered (sink demo_race)
     = payload 200 Byte.x01 ++ payload 150 Byte.x02
  /\ delivered (sink demo_race)
     <> payload 200 Byte.x01 ++ payload 150 Byte.x02
        ++ payload 100 Byte.x04
  /\ _count (lw demo_race) = 0
  /\ _running (lw demo_race) = false
  /\ _fd (lw demo_race) = -1.
Proof.
  repeat apply conj; try (vm_compute; reflexivity).
  vm_compute. intros H. discriminate H.
Qed.

(** C5, as stated, fails when the head segment is shorter than
    [_min_write_chunk] and the session goes on: after the write of the
    tail the thread parks, and the region has had one [::write], not
    two.  It fails also when a [::write] is short: the next one is the
    rest of the tail, not the head segment. *)
Lemma wrapped_region_second_write_waits :
  _head (lw demo_wrapped) = 26
  /\ _count (lw demo_wrapped) = 700
  /\ read_pos (lw demo_wrapped) + _count (lw demo_wrapped)
     > _buffer_size (lw demo_wrapped)
  /\ written_spans (new_events demo_wrapped demo_tail_written)
     = [payload 674 Byte.x02]
  /\ _count (lw demo_tail_written) = 26
  /\ pc demo_tail_written = PcWait
  /\ (forall ret, worker_step 300 ret demo_tail_written = demo_tail_written)
  /\ written_spans (new_events demo_wrapped demo_tail_short)
     = [payload 674 Byte.x02; payload 574 Byte.x02].
Proof.
  repeat apply conj; try (vm_compute; reflexivity).
Qed.

(** C5, amended. When the unread region crosses the end of the storage
    and the thread is at the top of the drain loop, then, no append
    intervening and every [::write] taking all it is given, the thread
    writes the region as two contiguous spans of [_buffer], read in
    place: the tail, from [read_pos] to the capacity, at once (a partial
    run does not wait for the threshold), and the head segment, from the
    start of the storage, in the next [::write]; the two spans together
    are the region.  The second [::write] is issued when the head segment
    is at least [_min_write_chunk] long or the session has been stopped;
    a shorter head segment of a running session waits in the ring, the
    thread parked.  In a running session, from the top of the drain loop
    and under every interleaving of appends and thread steps, whatever
    the calls of [::write] return, each span handed to [::write] is a
    slice of the storage, read in place, that does not pass its end, and
    is the head of the unread region. *)
Theorem wrapped_region_two_writes mwc c st :
  pc st = PcWait -> ring_inv (lw st) ->
  0 < _head (lw st) < _count (lw st) ->
  let s := lw st in
  let tail := span s (read_pos s) (_buffer_size s - read_pos s) in
  let head_seg := span s 0 (_head s) in
  let st1 :=
    exec mwc [IWorker 0; IWorker (_buffer_size s - read_pos s);
              IWorker 0; IWorker c] st in
  read_pos s + _count s > _buffer_size s
  /\ tail ++ head_seg = unread s
  /\ written_spans (new_events st st1) = [tail]
  /\ pc st1 = PcWait
  /\ (_head s >= mwc \/ _should_run s = false ->
      written_spans
        (new_events st (exec mwc [IWorker 0; IWorker (_head s)] st1))
      = [tail; head_seg])
  /\ (_head s < mwc -> _should_run s = true ->
      forall r, worker_step mwc r st1 = st1)
  /\ (forall r ins st',
        ring_inv (lw st') -> pc st' = PcWait ->
        _should_run (lw st') = true -> session_run mwc ins st' ->
        let st0 := exec mwc ins st' in
        pc st0 = PcWrite -> available st0 > 0 ->
        (exists more,
           sink (worker_step mwc r st0)
           = sink st0
             ++ Write_ev (_fd (lw st0))
                  (span (lw st0) (read_ptr st0) (available st0)) r :: more
           /\ written_spans more = [])
        /\ 0 <= read_ptr st0
        /\ read_ptr st0 + available st0 <= _buffer_size (lw st0)
        /\ _buffer_size (lw st0) = Z.of_nat (length (_buffer (lw st0)))
        /\ span (lw st0) (read_ptr st0) (available st0)
           = take (Z.to_nat (available st0)) (unread (lw st0))).
Proof.
  intros Hpc Hinv Hwrap. cbv zeta.
  pose proof (read_pos_inv (lw st) Hinv) as Hrp.
  pose proof (get_read_ptr_inv (lw st) Hinv) as Hgp.
  pose proof Hinv as (Hbs & Hlen & Hh & Hc).
  destruct (Z.ltb_spec (_head (lw st)) (_count (lw st))) as [_ | ?];
    [| lia].
  assert (Hav : _buffer_size (lw st) - read_pos (lw st)
                = _count (lw st) - _head (lw st)) by lia.
  assert (Hw : wait_over mwc (lw st) = true).
  { unfold wait_over. rewrite Hgp. apply orb_true_iff. left.
    apply orb_true_r. }
  (* first iteration: the tail *)
  rewrite exec_four, Hav, <- Hrp in *.
  destruct (drain_write mwc st _ _ _ Hpc Hinv Hgp Hw ltac:(lia))
    as (P2 & L2 & W2 & A2 & I2 & e1 & S2 & Sp1 & _).
  set (st2 := exec mwc [IWorker 0;
                        IWorker (_count (lw st) - _head (lw st))] st) in *.
  destruct (mark_check_on mwc c st2 P2) as
    (P4 & S4 & Hinv4 & Bs4 & Bf4 & H4 & C4 & R4 & _);
    [rewrite L2; exact Hinv | rewrite L2, W2; lia
    | right; exact I2 |].
  set (st4 := exec mwc [IWorker 0; IWorker c] st2) in *.
  rewrite L2 in Bs4, Bf4, H4, C4, R4. rewrite W2 in C4.
  assert (E1 : sink st4 = sink st ++ e1) by (rewrite S4; exact S2).
  (* the state before the second iteration *)
  assert (Hgp4 : get_read_ptr (lw st4) = (_head (lw st), 0, false)).
  { rewrite get_read_ptr_inv by assumption. rewrite H4, C4.
    destruct (Z.ltb_spec (_head (lw st))
                (_count (lw st) - (_count (lw st) - _head (lw st))));
      [lia |].
    do 2 f_equal; lia. }
  assert (Hw4 : wait_over mwc (lw st4)
                = (_head (lw st) >=? mwc) || negb (_should_run (lw st))).
  { unfold wait_over. rewrite Hgp4, R4, orb_false_r. reflexivity. }
  split; [lia |].
  split; [rewrite <- Hav; apply wrapped_split; [assumption | lia] |].
  split; [rewrite (new_events_app _ _ _ E1); exact Sp1 |].
  split; [exact P4 |].
  split.
  - intros Hgo.
    assert (Hw4' : wait_over mwc (lw st4) = true).
    { rewrite Hw4. destruct Hgo as [Hge | ->]; [| apply orb_true_r].
      destruct (Z.geb_spec (_head (lw st)) mwc); [reflexivity | lia]. }
    destruct (drain_write mwc st4 _ _ _ P4 Hinv4 Hgp4 Hw4' ltac:(lia))
      as (_ & _ & _ & _ & _ & e2 & S6 & Sp2 & _).
    rewrite (span_same_buffer (lw st) (lw st4)) in Sp2 by exact Bf4.
    rewrite E1, <- app_assoc in S6.
    rewrite (new_events_app _ _ _ S6), written_spans_app, Sp1, Sp2.
    reflexivity.
  - split.
    + intros Hlt Hrun r. apply step_wait_stay; [exact P4 |].
      rewrite Hw4, Hrun. destruct (Z.geb_spec (_head (lw st)) mwc); [lia |].
      reflexivity.
    + intros r ins st' Hinv' Hpc' Hsr' Hrun'. cbv zeta.
      apply write_step_span.
      apply (fifo_exec mwc ins st'); try assumption.
      * split; [exact Hinv' | rewrite Hpc'; exact I].
      * unfold in_drain. rewrite Hpc'. reflexivity.
Qed.

Lemma wrapped_region_two_writes_witness :
  written_spans
    (new_events demo_wrapped_stopped
       (exec 300 [IWorker 0; IWorker 26]
          (exec 300 [IWorker 0; IWorker 674; IWorker 0; IWorker 0]
             demo_wrapped_stopped)))
  = [payload 674 Byte.x02; payload 26 Byte.x02].
Proof.
  assert (Hpc : pc demo_wrapped_stopped = PcWait)
    by (vm_compute; reflexivity).
  assert (Hinv : ring_inv (lw demo_wrapped_stopped))
    by (unfold ring_inv; vm_compute; intuition congruence).
  assert (Hw : 0 < _head (lw demo_wrapped_stopped)
               < _count (lw demo_wrapped_stopped))
    by (vm_compute; intuition congruence).
  assert (Hstop : _head (lw demo_wrapped_stopped) >= 300
                  \/ _should_run (lw demo_wrapped_stopped) = false)
    by (right; vm_compute; reflexivity).
  pose proof (wrapped_region_two_writes 300 0 demo_wrapped_stopped
                Hpc Hinv Hw) as (_ & _ & _ & _ & H5 & _).
  specialize (H5 Hstop).
  vm_compute in H5 |- *. exact H5.
Defined.

(** * Further properties of the writer *)

(** X1. While a session runs, whatever the interleaving of producer and
    thread and however short the writes, the bytes the sink has received
    followed by the bytes still in the ring are the accepted payloads in
    call order: the sink always holds a byte-exact prefix of what was
    appended, a rejected payload contributes nothing, and the session
    stays in the drain loop. *)
Theorem fifo_prefix_in_running_session mwc ins st :
  sys_inv st -> in_drain st = true -> _should_run (lw st) = true ->
  session_run mwc ins st ->
  delivered (sink (exec mwc ins st)) ++ pending (exec mwc ins st)
  = delivered (sink st) ++ pending st ++ appended mwc ins st
  /\ in_drain (exec mwc ins st) = true
  /\ ring_inv (lw (exec mwc ins st)).
Proof.
  intros Hs Hin Hsr Hrun.
  destruct (fifo_exec mwc ins st Hs Hin Hsr Hrun) as (H1 & _ & H3 & H4).
  split; [exact H4 |]. split; [exact H1 | apply H3].
Qed.

Lemma fifo_prefix_in_running_session_witness :
  delivered (sink (exec 300 demo_session demo_active))
  ++ pending (exec 300 demo_session demo_active)
  = payload 350 Byte.x01 ++ payload 700 Byte.x02.
Proof.
  assert (Hs : sys_inv demo_active).
  { unfold sys_inv, ring_inv. vm_compute. intuition congruence. }
  assert (Hin : in_drain demo_active = true) by (vm_compute; reflexivity).
  assert (Hsr : _should_run (lw demo_active) = true)
    by (vm_compute; reflexivity).
  assert (Hrun : session_run 300 demo_session demo_active).
  { vm_compute. intuition (discriminate || congruence). }
  destruct (fifo_prefix_in_running_session 300 demo_session demo_active
              Hs Hin Hsr Hrun) as (H & _).
  rewrite H. vm_compute. reflexivity.
Defined.

(** X3. The producer never touches the bytes the thread is writing: the
    span [::write] reads outside the lock is the same storage content
    before and after any [write] of the producer, accepted or not. *)
Theorem append_keeps_span_in_flight s av ptr :
  ring_inv s -> 0 <= av <= _count s ->
  read_pos s + av <= _buffer_size s ->
  span (snd (write s ptr)) (read_pos s) av = span s (read_pos s) av.
Proof.
  intros Hinv Hav Hfit.
  pose proof (ring_inv_write s ptr Hinv) as Hinv'.
  pose proof (count_write_le s ptr Hinv) as Hle.
  pose proof (length_unread s Hinv) as Hlu.
  rewrite <- (read_pos_write s ptr Hinv) at 1.
  rewrite !span_unread;
    rewrite ?read_pos_write, ?buffer_size_write; try assumption; try lia.
  destruct (fst (write s ptr)) eqn:Eacc.
  - rewrite unread_write
      by (assumption || (apply write_accepted_fits; assumption)).
    apply take_app_le. lia.
  - rewrite write_rejected_same by assumption. reflexivity.
Qed.

Lemma append_keeps_span_in_flight_witness :
  span (snd (write demo_900 (payload 100 Byte.x02))) (read_pos demo_900) 900
  = span demo_900 (read_pos demo_900) 900.
Proof.
  apply (append_keeps_span_in_flight demo_900 900 (payload 100 Byte.x02)).
  - unfold ring_inv. vm_compute. intuition congruence.
  - vm_compute. intuition congruence.
  - vm_compute. congruence.
Defined.

(** X4. On a well-formed ring the run [get_read_ptr] returns lies inside
    the storage and inside the unread region; it is empty only when the
    ring is empty, so a thread that is let through always has bytes to
    write; a partial run ends at the end of the storage and a run that is
    not partial is the whole region. *)
Theorem get_read_ptr_in_bounds s :
  ring_inv s ->
  let '(av, rp, part) := get_read_ptr s in
  0 <= rp /\ rp + av <= _buffer_size s
  /\ 0 <= av <= _count s
  /\ (av = 0 <-> _count s = 0)
  /\ (part = true -> rp + av = _buffer_size s)
  /\ (part = false -> av = _count s)
  /\ length (span s rp av) = Z.to_nat av.
Proof.
  intros Hinv. pose proof (get_read_ptr_inv s Hinv) as E.
  pose proof Hinv as (Hbs & Hlen & Hh & Hc).
  destruct (Z.ltb_spec (_head s) (_count s)); rewrite E;
    (repeat split; try lia; try discriminate);
    apply length_span; lia.
Qed.

Lemma get_read_ptr_in_bounds_witness :
  let '(av, rp, part) := get_read_ptr (lw demo_wrapped) in
  0 <= rp /\ rp + av <= _buffer_size (lw demo_wrapped)
  /\ 0 <= av <= _count (lw demo_wrapped)
  /\ (av = 0 <-> _count (lw demo_wrapped) = 0)
  /\ (part = true -> rp + av = _buffer_size (lw demo_wrapped))
  /\ (part = false -> av = _count (lw demo_wrapped))
  /\ length (span (lw demo_wrapped) rp av) = Z.to_nat av.
Proof.
  apply (get_read_ptr_in_bounds (lw demo_wrapped)).
  unfold ring_inv. vm_compute. intuition congruence.
Defined.

(** X5. An accepted [write] advances [_head] by the payload length modulo
    the capacity, adds the length to [_count] and keeps the storage
    length; an empty payload is always accepted and changes nothing. *)
Theorem write_advances_cursor s ptr :
  ring_inv s ->
  Z.of_nat (length ptr) <= _buffer_size s - _count s ->
  fst (write s ptr) = true
  /\ _head (snd (write s ptr))
     = (_head s + Z.of_nat (length ptr)) mod _buffer_size s
  /\ _count (snd (write s ptr)) = _count s + Z.of_nat (length ptr)
  /\ length (_buffer (snd (write s ptr))) = length (_buffer s)
  /\ write s [] = (true, s).
Proof.
  intros Hinv Hfit. pose proof Hinv as (Hbs & Hlen & Hh & Hc).
  pose proof (length_write_buffer s ptr Hinv Hfit) as Hl.
  assert (Hempty : write s [] = (true, s)).
  { rewrite write_inv by assumption.
    change (Z.of_nat (length (@nil Byte.byte))) with 0.
    destruct (Z.gtb_spec 0 (_buffer_size s - _count s)); [lia |].
    f_equal. unfold write_buffer, write_head, set_ring.
    change (Z.of_nat (length (@nil Byte.byte))) with 0.
    destruct (Z.gtb_spec 0 (_buffer_size s - _head s)); [lia |].
    destruct (Z.eqb_spec 0 (_buffer_size s - _head s)); [lia |].
    unfold memcpy. simpl.
    rewrite !Z.add_0_r, take_drop. destruct s; reflexivity. }
  rewrite Hempty. rewrite !write_inv by assumption.
  destruct (Z.gtb_spec (Z.of_nat (length ptr)) (_buffer_size s - _count s));
    [lia |].
  simpl. repeat split; try assumption.
  unfold write_head.
  destruct (Z.gtb_spec (Z.of_nat (length ptr)) (_buffer_size s - _head s));
    [| destruct (Z.eqb_spec (Z.of_nat (length ptr))
                   (_buffer_size s - _head s))].
  - apply Z.mod_unique with (q := 1); lia.
  - replace (_head s + Z.of_nat (length ptr)) with (_buffer_size s) by lia.
    symmetry. apply Z.mod_same. lia.
  - symmetry. apply Z.mod_small. lia.
Qed.

Lemma write_advances_cursor_witness :
  _head (snd (write (lw demo_wrapped) (payload 100 Byte.x05)))
  = (_head (lw demo_wrapped) + 100) mod _buffer_size (lw demo_wrapped).
Proof.
  apply (write_advances_cursor (lw demo_wrapped) (payload 100 Byte.x05)).
  - unfold ring_inv. vm_compute. intuition congruence.
  - vm_compute. congruence.
Defined.

(** X7. When [::open] fails, [start_log] records the failed descriptor,
    clears [_should_run] and returns before the reset: the cursors, the
    storage and [_running] keep their values; a thread waiting for a
    session stays outside the drain loop and nothing reaches the sink,
    whatever the producer, [stop_log] and the thread do. *)
Theorem open_failure_starts_nothing mwc fd st :
  fd < 0 -> _exit_thread (lw st) = false ->
  pc st = PcOuter \/ pc st = PcInner \/ pc st = PcIdle ->
  _should_run (start_log (lw st) fd) = false
  /\ _fd (start_log (lw st) fd) = fd
  /\ _running (start_log (lw st) fd) = _running (lw st)
  /\ _head (start_log (lw st) fd) = _head (lw st)
  /\ _count (start_log (lw st) fd) = _count (lw st)
  /\ _buffer (start_log (lw st) fd) = _buffer (lw st)
  /\ forall ins, Forall no_start_no_exit ins ->
       in_drain (exec mwc ins (step mwc (IStartLog fd) st)) = false
       /\ sink (exec mwc ins (step mwc (IStartLog fd) st)) = sink st.
Proof.
  intros Hfd Hex Hpc. unfold start_log.
  destruct (Z.ltb_spec fd 0) as [_ | ?]; [| lia]. sys_proj.
  repeat (split; [reflexivity |]).
  intros ins Hins.
  destruct (parked_exec mwc ins (step mwc (IStartLog fd) st) Hins)
    as ((_ & _ & Hp) & _ & _ & Hs).
  { unfold parked, step, start_log.
    destruct (Z.ltb_spec fd 0) as [_ | ?]; [| lia]. sys_proj. auto. }
  split; [| exact Hs].
  unfold in_drain. destruct Hp as [-> | [-> | ->]]; reflexivity.
Qed.

Lemma open_failure_starts_nothing_witness :
  in_drain (exec 300 [IWorker 0; IAppend (payload 10 Byte.x01); IWorker 0]
              (step 300 (IStartLog (-1)) demo_closed)) = false.
Proof.
  assert (Hex : _exit_thread (lw demo_closed) = false)
    by (vm_compute; reflexivity).
  assert (Hpc : pc demo_closed = PcOuter \/ pc demo_closed = PcInner
                \/ pc demo_closed = PcIdle)
    by (left; vm_compute; reflexivity).
  destruct (open_failure_starts_nothing 300 (-1) demo_closed
              ltac:(lia) Hex Hpc) as (_ & _ & _ & _ & _ & _ & H).
  apply H. repeat constructor.
Defined.

(** X8. [thread_stop] ends the thread: with no session open and the ring
    empty, a thread that is woken makes one last pass through the drain
    loop, writes and closes nothing, and returns from [run] within six
    steps, wherever it was waiting; once returned it stays so. *)
Theorem thread_stop_ends_thread mwc rets st :
  quiet st -> (6 <= length rets)%nat ->
  pc (exec mwc (IThreadStop :: map IWorker rets) st) = PcExit
  /\ sink (exec mwc (IThreadStop :: map IWorker rets) st) = sink st.
Proof.
  intros Hq Hlen. rewrite exec_cons. cbn [step].
  assert (Hq' : quiet (with_lw st (thread_stop (lw st)))).
  { destruct Hq as ((Hsr & Hfd) & Hrun & Hh & Hc & Hpc).
    unfold quiet, closed, thread_stop. sys_proj. auto 10. }
  destruct (exit_exec mwc rets _ Hq' eq_refl) as (Hs & Hr).
  split; [| exact Hs].
  assert (Hrank : (exit_rank (with_lw st (thread_stop (lw st))) <= 6)%nat).
  { destruct Hq as (_ & _ & _ & _ & Hpc). unfold exit_rank. sys_proj.
    destruct (pc st); (lia || contradiction). }
  revert Hr. unfold exit_rank at 1.
  destruct (pc (exec mwc (map IWorker rets) _)); intros Hr;
    try reflexivity; lia.
Qed.

Lemma thread_stop_ends_thread_witness :
  pc (exec 300 (IThreadStop :: map IWorker [0; 0; 0; 0; 0; 0]) demo_closed)
  = PcExit.
Proof.
  apply (thread_stop_ends_thread 300 [0; 0; 0; 0; 0; 0] demo_closed).
  - unfold quiet, closed. vm_compute. intuition congruence.
  - vm_compute. lia.
Defined.

(** X9. Once [stop_log] has been called and the thread is at the top of
    the drain loop, the thread alone, with writes that take all they are
    given, empties the ring in at most two runs without waiting for the
    chunk threshold: every byte still unread reaches the sink in order,
    then the file is closed, once, the cursors are reset and [_running]
    is cleared; eight steps suffice. *)
Theorem stop_drains_and_closes mwc st :
  pc st = PcWait -> ring_inv (lw st) ->
  _should_run (lw st) = false -> 0 <= _fd (lw st) ->
  let st' := drain_alone mwc 8 st in
  pc st' = PcOuter
  /\ _head (lw st') = 0 /\ _count (lw st') = 0
  /\ _running (lw st') = false /\ _fd (lw st') = -1
  /\ delivered (sink st') = delivered (sink st) ++ unread (lw st)
  /\ exists evs, sink st' = sink st ++ evs ++ [Close_ev (_fd (lw st)) 0]
       /\ forallb (fun e => negb (is_close e)) evs = true.
Proof. exact (drain_stopped mwc st). Qed.

Lemma stop_drains_and_closes_witness :
  delivered (sink (drain_alone 300 8 demo_wrapped_stopped))
  = delivered (sink demo_wrapped_stopped)
    ++ unread (lw demo_wrapped_stopped).
Proof.
  apply (stop_drains_and_closes 300 demo_wrapped_stopped).
  - vm_compute. reflexivity.
  - unfold ring_inv. vm_compute. intuition congruence.
  - vm_compute. reflexivity.
  - vm_compute. congruence.
Defined.

(** X10. The thread never calls [::write] with nothing to write: in every
    run in which [::write] returns an error or at most the length asked
    and [start_log] is not called inside the drain loop, each [::write]
    is handed at least one byte (an empty ring goes to the end-of-session
    check without a system call). *)
Theorem no_empty_write mwc ins st :
  sys_inv st -> valid_run mwc ins st ->
  Forall nonempty_write (new_events st (exec mwc ins st)).
Proof.
  intros Hs Hv. destruct (nonempty_exec mwc ins st Hs Hv) as (evs & E & F).
  rewrite (new_events_app _ _ _ E). exact F.
Qed.

Lemma no_empty_write_witness :
  Forall nonempty_write
    (new_events demo_active (exec 300 demo_session demo_active)).
Proof.
  apply (no_empty_write 300 demo_session demo_active).
  - unfold sys_inv, ring_inv. vm_compute. intuition congruence.
  - vm_compute. intuition (discriminate || congruence).
Defined.

(** X11. [_total_written] counts what the sink took: over any stretch of
    a running session that starts at the top of the drain loop, the
    counter, together with the bytes of the write in progress that the
    thread has not added yet, grows by the number of bytes delivered, as
    [size_t] arithmetic (modulo 2^32). *)
Theorem total_written_counts_delivered mwc ins st :
  sys_inv st -> pc st = PcWait -> _should_run (lw st) = true ->
  session_run mwc ins st ->
  size_t (_total_written (lw (exec mwc ins st))
          + uncounted (exec mwc ins st))
  = size_t (_total_written (lw st)
            + Z.of_nat (length (delivered
                                  (new_events st (exec mwc ins st))))).
Proof.
  intros Hs Hpc Hsr Hrun.
  destruct (total_exec mwc ins st Hs) as (evs & E & T); try assumption.
  - unfold in_drain. rewrite Hpc. reflexivity.
  - rewrite Hpc. discriminate.
  - rewrite (new_events_app _ _ _ E), T. unfold uncounted. rewrite Hpc.
    f_equal. lia.
Qed.

Lemma total_written_counts_delivered_witness :
  size_t (_total_written (lw (exec 300 demo_session demo_active))
          + uncounted (exec 300 demo_session demo_active))
  = 1024.
Proof.
  assert (Hs : sys_inv demo_active).
  { unfold sys_inv, ring_inv. vm_compute. intuition congruence. }
  assert (Hrun : session_run 300 demo_session demo_active).
  { vm_compute. intuition (discriminate || congruence). }
  rewrite (total_written_counts_delivered 300 demo_session demo_active
             Hs eq_refl eq_refl Hrun).
  vm_compute. reflexivity.
Defined.

(** X12. A session round trip: when [stop_log] is called while the thread
    is at the top of the drain loop (parked, or about to look at the
    ring), everything appended during the session reaches the sink, in
    call order and byte for byte, before the file is closed: the stream
    delivered at the close is the one delivered before the stretch,
    followed by what was pending and by every payload accepted since. *)
Theorem session_round_trip mwc ins st :
  sys_inv st -> in_drain st = true -> _should_run (lw st) = true ->
  0 <= _fd (lw st) ->
  session_run mwc ins st ->
  pc (exec mwc ins st) = PcWait ->
  let st' := drain_alone mwc 8 (step mwc IStopLog (exec mwc ins st)) in
  delivered (sink st')
  = delivered (sink st) ++ pending st ++ appended mwc ins st
  /\ pc st' = PcOuter
  /\ _count (lw st') = 0
  /\ _running (lw st') = false
  /\ _fd (lw st') = -1.
Proof.
  intros Hs Hin Hsr Hfd Hrun Hpc.
  destruct (fifo_exec mwc ins st Hs Hin Hsr Hrun) as (_ & _ & Hs1 & E).
  pose proof (session_fd_exec mwc ins st Hs Hin Hsr Hrun) as Hfd1.
  set (st1 := exec mwc ins st) in *.
  assert (Hpend : pending st1 = unread (lw st1))
    by (unfold pending; rewrite Hpc; reflexivity).
  destruct (drain_stopped mwc (step mwc IStopLog st1))
    as (Q1 & Q2 & Q3 & Q4 & Q5 & Q6 & _);
    [exact Hpc | apply Hs1 | reflexivity | cbn; rewrite Hfd1; exact Hfd |].
  cbv zeta. split; [| exact (conj Q1 (conj Q3 (conj Q4 Q5)))].
  rewrite Q6. cbn [step sink with_lw lw].
  change (unread (stop_log (lw st1))) with (unread (lw st1)).
  rewrite <- Hpend. exact E.
Qed.

Lemma session_round_trip_witness :
  delivered
    (sink (drain_alone 300 8
             (step 300 IStopLog (exec 300 demo_session demo_active))))
  = payload 350 Byte.x01 ++ payload 700 Byte.x02.
Proof.
  assert (Hs : sys_inv demo_active).
  { unfold sys_inv, ring_inv. vm_compute. intuition congruence. }
  assert (Hrun : session_run 300 demo_session demo_active).
  { vm_compute. intuition (discriminate || congruence). }
  assert (Hfd : 0 <= _fd (lw demo_active)) by (vm_compute; congruence).
  assert (Hpc : pc (exec 300 demo_session demo_active) = PcWait)
    by (vm_compute; reflexivity).
  destruct (session_round_trip 300 demo_session demo_active
              Hs eq_refl eq_refl Hfd Hrun Hpc) as (H & _).
  rewrite H. vm_compute. reflexivity.
Defined.
